(** * CREDGEN credential vault: a model of [models/database.py]

    The development embeds the [CredentialDatabase] class: the strength
    scorer, the cipher boundary, the three SQL tables behind the sqlite3
    connection, and the seven public methods, and states the properties of
    the vault's specification over that embedding.

    Modelling conventions.
    - A Python [str] is a [string] read as a sequence of code points
      U+0000..U+00FF, one [ascii] per code point; [len] is [String.length].
    - A sqlite3 row converted with [dict(row)] is a [gmap string value].
    - The connection is an explicit state: the committed database, the
      working copy of an open transaction, and the [foreign_keys] pragma.
      Every method is a function from a connection to its return value and
      the next connection.
    - [CURRENT_TIMESTAMP] and the entropy drawn by the cipher are inputs of
      the calls that use them.
    - The generation_settings table is created by the class and never read
      or written by it; it is left out.
    - Row ids are unbounded integers; the exhaustion of sqlite's 63-bit id
      space and its limit on the length of a LIKE pattern are outside the
      model. An id that the caller gives is bound as sqlite's 64-bit
      INTEGER, which fails for a Python int outside that range. *)

From Stdlib Require Import ZArith Ascii String Bool Sorted.
From stdpp Require Import base decidable option list sorting strings gmap fin_maps.

Local Open Scope Z_scope.

(** ** Python strings *)

Definition ord (c : ascii) : nat := nat_of_ascii c.

Definition in_range (lo hi : nat) (c : ascii) : bool :=
  (lo <=? ord c)%nat && (ord c <=? hi)%nat.

(** [str.isupper] on one character: the code points below U+0100 with the
    Unicode property Uppercase (A-Z, U+00C0-U+00D6, U+00D8-U+00DE). *)
Definition isupper (c : ascii) : bool :=
  in_range 65 90 c || in_range 192 214 c || in_range 216 222 c.

(** [str.islower] on one character: the code points below U+0100 with the
    Unicode property Lowercase (a-z, U+00AA, U+00B5, U+00BA, U+00DF-U+00F6,
    U+00F8-U+00FF). *)
Definition islower (c : ascii) : bool :=
  in_range 97 122 c || (ord c =? 170)%nat || (ord c =? 181)%nat
  || (ord c =? 186)%nat || in_range 223 246 c || in_range 248 255 c.

(** [str.isdigit] on one character: 0-9 and the superscripts U+00B2, U+00B3
    and U+00B9. *)
Definition isdigit (c : ascii) : bool :=
  in_range 48 57 c || (ord c =? 178)%nat || (ord c =? 179)%nat
  || (ord c =? 185)%nat.

(** [any(f(c) for c in s)] *)
Fixpoint any (f : ascii → bool) (s : string) : bool :=
  match s with
  | EmptyString => false
  | String c s' => f c || any f s'
  end.

(** [c in s] for a one-character [c] *)
Definition char_in (s : string) (c : ascii) : bool := any (Ascii.eqb c) s.

Definition len (s : string) : nat := String.length s.

(** ** Strength scorer *)

Definition punctuation : string := "!@#$%^&*()_+-=[]{}|;:,.<>?".

(** The value of the local variable [score] when the six tests are done. *)
Definition password_score (password : string) : nat :=
  let score := 0%nat in
  let score := if (12 <=? len password)%nat then (score + 1)%nat else score in
  let score := if (16 <=? len password)%nat then (score + 1)%nat else score in
  let score := if any isupper password then (score + 1)%nat else score in
  let score := if any islower password then (score + 1)%nat else score in
  let score := if any isdigit password then (score + 1)%nat else score in
  let score := if any (char_in punctuation) password then (score + 1)%nat else score in
  score.

Definition _calculate_password_strength (password : string) : string :=
  let score := password_score password in
  if (5 <=? score)%nat then "Strong"
  else if (3 <=? score)%nat then "Medium"
  else "Weak".

(** ** The cipher

    [cryptography.fernet.Fernet] is a library of the environment. The model
    takes it as an interface: [encrypt] draws fresh entropy (the token's
    timestamp and initialisation vector, here the [nonce]), [decrypt]
    returns [None] where the library raises [InvalidToken]. The two laws are
    those of Fernet tokens: a token decrypts to the text it was made from,
    and a token is longer than that text (it carries a version byte, a
    timestamp, the vector, a padded body and a MAC). *)

Definition nonce := string.

Class Cipher := {
  encrypt : nonce → string → string;
  decrypt : string → option string;
  decrypt_encrypt : ∀ iv p, decrypt (encrypt iv p) = Some p;
  encrypt_longer : ∀ iv p, (len p < len (encrypt iv p))%nat
}.

(** A reference cipher with the shape of a Fernet token, used to run the
    model on concrete data: a version character, a digest of the nonce, a
    tag over the body, and the body masked with a pad derived from the key
    and the nonce. *)
Definition xor_ascii (a b : ascii) : ascii :=
  match a, b with
  | Ascii a0 a1 a2 a3 a4 a5 a6 a7, Ascii b0 b1 b2 b3 b4 b5 b6 b7 =>
      Ascii (xorb a0 b0) (xorb a1 b1) (xorb a2 b2) (xorb a3 b3)
            (xorb a4 b4) (xorb a5 b5) (xorb a6 b6) (xorb a7 b7)
  end.

Fixpoint digest (s : string) : ascii :=
  match s with
  | EmptyString => zero
  | String c s' => xor_ascii c (digest s')
  end.

Fixpoint mask (pad : ascii) (s : string) : string :=
  match s with
  | EmptyString => EmptyString
  | String c s' => String (xor_ascii pad c) (mask pad s')
  end.

Definition ref_tag (key : string) (ivc : ascii) (body : string) : ascii :=
  xor_ascii (digest key) (xor_ascii ivc (digest body)).

Definition ref_encrypt (key : string) (iv : nonce) (p : string) : string :=
  let ivc := digest iv in
  let body := mask (xor_ascii (digest key) ivc) p in
  String "g" (String ivc (String (ref_tag key ivc body) body)).

Definition ref_decrypt (key : string) (token : string) : option string :=
  match token with
  | String v (String ivc (String tag body)) =>
      if Ascii.eqb v "g" && Ascii.eqb tag (ref_tag key ivc body)
      then Some (mask (xor_ascii (digest key) ivc) body)
      else None
  | _ => None
  end.

(** ** Values, exceptions, results *)

(** What a cell of a sqlite3 row holds once it reaches Python. *)
Inductive value :=
  | Null
  | Integer (n : Z)
  | Text (s : string).

Definition text_or_null (o : option string) : value :=
  match o with Some s => Text s | None => Null end.

Inductive exception :=
  | IntegrityError (msg : string)
  | InvalidToken
  | KeyError (key : string)
  | AttributeError (msg : string)
  | OverflowError (msg : string).

(** [str(e)] *)
Definition str (e : exception) : string :=
  match e with
  | IntegrityError msg => msg
  | InvalidToken => ""
  | KeyError key => "'" +:+ key +:+ "'"
  | AttributeError msg => msg
  | OverflowError msg => msg
  end.

(** The dictionary that [add_credential], [update_credential] and
    [delete_credential] return. *)
Module Result.
Record t := mk {
  success : bool;
  message : string;
  id : option Z
}.
End Result.

(** ** Tables *)

Module Cred.
Record row := mk {
  id : Z;
  service_name : string;
  username : string;
  email : option string;
  password_encrypted : string;
  password_strength : string;
  notes : option string;
  category : string;
  created_at : string;
  updated_at : string;
  last_accessed : option string
}.
End Cred.

Module Hist.
Record row := mk {
  id : Z;
  credential_id : Z;
  password_encrypted : string;
  generated_at : string
}.
End Hist.

Record Database := {
  credentials : list Cred.row;
  password_history : list Hist.row;
  (** the [sqlite_sequence] entries of the two AUTOINCREMENT tables *)
  seq_credentials : Z;
  seq_password_history : Z
}.

Definition empty_database : Database :=
  {| credentials := []; password_history := [];
     seq_credentials := 0; seq_password_history := 0 |}.

(** ** The connection *)

Record Connection := {
  committed : Database;
  pending : option Database;
  foreign_keys : bool
}.

(** The database as this connection sees it. *)
Definition view (c : Connection) : Database :=
  match pending c with
  | Some db => db
  | None => committed c
  end.

(** [sqlite3.connect] followed by [_create_tables] on a file holding [file]:
    the tables are kept as they are, and foreign key enforcement is off, as
    sqlite leaves it on every new connection until
    [PRAGMA foreign_keys = ON] is run. *)
Definition _connect (file : Database) : Connection :=
  {| committed := file; pending := None; foreign_keys := false |}.

(** The connection with [db] written in its open transaction. *)
Definition working (c : Connection) (db : Database) : Connection :=
  {| committed := committed c; pending := Some db; foreign_keys := foreign_keys c |}.

(** The connection with [db] committed and no transaction open. *)
Definition settled (c : Connection) (db : Database) : Connection :=
  {| committed := db; pending := None; foreign_keys := foreign_keys c |}.

(** A method body: it may raise, and it leaves the connection as it was at
    that point. *)
Definition M (A : Type) : Type := Connection → (exception + A) * Connection.

#[global] Instance M_ret : MRet M := λ A a c, (inr a, c).

#[global] Instance M_bind : MBind M := λ A B k m c,
  match m c with
  | (inr a, c') => k a c'
  | (inl e, c') => (inl e, c')
  end.

Definition raise {A} (e : exception) : M A := λ c, (inl e, c).

(** [try: body except ...: handler] *)
Definition try_except {A} (body : M A) (handler : exception → A) : Connection → A * Connection :=
  λ c, match body c with
       | (inr a, c') => (a, c')
       | (inl e, c') => (handler e, c')
       end.

(** A statement that changes data: the sqlite3 module opens a transaction
    before it when none is open. A statement that fails changes nothing. *)
Definition execute_dml {A} (stmt : bool → Database → exception + Database * A) : M A :=
  λ c, match stmt (foreign_keys c) (view c) with
       | inr (db', a) => (inr a, working c db')
       | inl e => (inl e, working c (view c))
       end.

(** A SELECT: it reads the connection's view and opens no transaction. *)
Definition execute_query {A} (q : Database → A) : M A :=
  λ c, (inr (q (view c)), c).

(** [connection.commit()] *)
Definition commit : M unit := λ c, (inr tt, settled c (view c)).

(** ** SQL statements *)

(** The row id an AUTOINCREMENT table gives to a new row: one more than the
    largest id it has held. *)
Definition next_rowid (seq : Z) (ids : list Z) : Z := foldr Z.max seq ids + 1.

(** The UNIQUE(service_name, username) key of a row. *)
Definition same_key (service_name username : string) (r : Cred.row) : Prop :=
  Cred.service_name r = service_name ∧ Cred.username r = username.

#[global] Instance same_key_dec s u r : Decision (same_key s u r).
Proof. unfold same_key. apply _. Defined.

Definition key_exists (service_name username : string) (db : Database) : Prop :=
  Exists (same_key service_name username) (credentials db).

Definition id_exists (i : Z) (db : Database) : Prop :=
  Exists (λ r, Cred.id r = i) (credentials db).

(** The range of sqlite's INTEGER. *)
Definition in_int64 (i : Z) : Prop := - 2 ^ 63 ≤ i < 2 ^ 63.

(** Whether the sqlite3 module can bind the Python int [i] as a statement
    parameter: it must fit sqlite's 64-bit INTEGER. As row ids have no bound
    in this model, an id that the table holds binds too; in a table whose
    ids are within 64 bits that adds nothing. *)
Definition binds (i : Z) (db : Database) : Prop := in_int64 i ∨ id_exists i db.

#[global] Instance binds_dec i db : Decision (binds i db).
Proof. unfold binds, in_int64, id_exists. apply _. Defined.

(** What [cursor.execute] raises on a parameter that does not bind; no
    statement is run, the transaction it opened stays open. *)
Definition overflow : exception :=
  OverflowError "Python int too large to convert to SQLite INTEGER".

(** The database with one more credentials row; the table's sequence moves
    to the row's id. *)
Definition with_credential (r : Cred.row) (db : Database) : Database :=
  {| credentials := credentials db ++ [r];
     password_history := password_history db;
     seq_credentials := Cred.id r;
     seq_password_history := seq_password_history db |}.

(** The database with one more password_history row. *)
Definition with_history (h : Hist.row) (db : Database) : Database :=
  {| credentials := credentials db;
     password_history := password_history db ++ [h];
     seq_credentials := seq_credentials db;
     seq_password_history := Hist.id h |}.

Definition next_credential_id (db : Database) : Z :=
  next_rowid (seq_credentials db) (Cred.id <$> credentials db).

Definition next_history_id (db : Database) : Z :=
  next_rowid (seq_password_history db) (Hist.id <$> password_history db).

(** The row that an INSERT INTO credentials (service_name, username, email,
    password_encrypted, password_strength, notes, category) makes:
    created_at and updated_at take their default CURRENT_TIMESTAMP,
    last_accessed is NULL. *)
Definition new_credential (db : Database) (service_name username : string)
    (email : option string) (password_encrypted password_strength : string)
    (notes : option string) (category now : string) : Cred.row :=
  Cred.mk (next_credential_id db) service_name username email password_encrypted
          password_strength notes category now now None.

(** INSERT INTO credentials (...) VALUES (?, ?, ?, ?, ?, ?, ?); the result
    is [cursor.lastrowid]. *)
Definition insert_credentials (service_name username : string) (email : option string)
    (password_encrypted password_strength : string) (notes : option string)
    (category now : string) (fk : bool) (db : Database) : exception + Database * Z :=
  if decide (key_exists service_name username db) then
    inl (IntegrityError "UNIQUE constraint failed: credentials.service_name, credentials.username")
  else
    inr (with_credential
           (new_credential db service_name username email password_encrypted
              password_strength notes category now) db,
         next_credential_id db).

(** INSERT INTO password_history (credential_id, password_encrypted)
    VALUES (?, ?). The reference to credentials(id) is checked only when
    foreign key enforcement is on. *)
Definition insert_password_history (credential_id : Z) (password_encrypted now : string)
    (fk : bool) (db : Database) : exception + Database * unit :=
  if decide (binds credential_id db) then
    if fk && negb (bool_decide (id_exists credential_id db)) then
      inl (IntegrityError "FOREIGN KEY constraint failed")
    else
      inr (with_history
             (Hist.mk (next_history_id db) credential_id password_encrypted now) db,
           tt)
  else inl overflow.

Definition set_last_accessed (now : string) (r : Cred.row) : Cred.row :=
  Cred.mk (Cred.id r) (Cred.service_name r) (Cred.username r) (Cred.email r)
          (Cred.password_encrypted r) (Cred.password_strength r) (Cred.notes r)
          (Cred.category r) (Cred.created_at r) (Cred.updated_at r) (Some now).

(** UPDATE t SET ... WHERE id = ?, with [f] the effect of the SET list. *)
Definition update_where_id (f : Cred.row → Cred.row) (i : Z) (rows : list Cred.row) : list Cred.row :=
  (λ r, if decide (Cred.id r = i) then f r else r) <$> rows.

(** The database with [f] applied to the credentials rows of id [i]. *)
Definition with_updated (f : Cred.row → Cred.row) (i : Z) (db : Database) : Database :=
  {| credentials := update_where_id f i (credentials db);
     password_history := password_history db;
     seq_credentials := seq_credentials db;
     seq_password_history := seq_password_history db |}.

(** UPDATE credentials SET last_accessed = CURRENT_TIMESTAMP WHERE id = ? *)
Definition update_last_accessed (i : Z) (now : string) (fk : bool) (db : Database)
    : exception + Database * unit :=
  if decide (binds i db) then inr (with_updated (set_last_accessed now) i db, tt)
  else inl overflow.

(** SELECT * FROM credentials WHERE id = ?, then [fetchone()]. *)
Definition select_by_id (i : Z) (db : Database) : option Cred.row :=
  head (filter (λ r, Cred.id r = i) (credentials db)).

(** One entry of the SET list that [update_credential] builds, with its
    parameter. *)
Inductive assignment :=
  | set_password_encrypted (v : string)
  | set_password_strength (v : string)
  | set_service_name (v : string)
  | set_username (v : string)
  | set_email (v : option string)
  | set_notes (v : option string)
  | set_category (v : string)
  | set_updated_at.

Definition assign (now : string) (r : Cred.row) (a : assignment) : Cred.row :=
  match r with
  | Cred.mk i sn un em pe ps nt ct ca ua la =>
      match a with
      | set_password_encrypted v => Cred.mk i sn un em v ps nt ct ca ua la
      | set_password_strength v => Cred.mk i sn un em pe v nt ct ca ua la
      | set_service_name v => Cred.mk i v un em pe ps nt ct ca ua la
      | set_username v => Cred.mk i sn v em pe ps nt ct ca ua la
      | set_email v => Cred.mk i sn un v pe ps nt ct ca ua la
      | set_notes v => Cred.mk i sn un em pe ps v ct ca ua la
      | set_category v => Cred.mk i sn un em pe ps nt v ca ua la
      | set_updated_at => Cred.mk i sn un em pe ps nt ct ca now la
      end
  end.

Definition touches_key (a : assignment) : bool :=
  match a with
  | set_service_name _ | set_username _ => true
  | _ => false
  end.

(** An updated row shares its (service_name, username) with another row. *)
Definition unique_violation (i : Z) (rows : list Cred.row) : Prop :=
  Exists (λ r, Cred.id r = i ∧
     (1 < length (filter (same_key (Cred.service_name r) (Cred.username r)) rows))%nat) rows.

(** UPDATE credentials SET <update_fields> WHERE id = ? *)
Definition update_credentials (update_fields : list assignment) (i : Z) (now : string)
    (fk : bool) (db : Database) : exception + Database * unit :=
  let db' := with_updated (λ r, foldl (assign now) r update_fields) i db in
  if decide (binds i db) then
    if existsb touches_key update_fields && bool_decide (unique_violation i (credentials db'))
    then
      inl (IntegrityError
             "UNIQUE constraint failed: credentials.service_name, credentials.username")
    else inr (db', tt)
  else inl overflow.

(** The database without the credentials rows of id [i], and, when
    [cascade] is set, without the password_history rows that refer to
    them. *)
Definition without_credential (cascade : bool) (i : Z) (db : Database) : Database :=
  {| credentials := filter (λ r, Cred.id r ≠ i) (credentials db);
     password_history :=
       if cascade then filter (λ h, Hist.credential_id h ≠ i) (password_history db)
       else password_history db;
     seq_credentials := seq_credentials db;
     seq_password_history := seq_password_history db |}.

(** DELETE FROM credentials WHERE id = ?; the result is [cursor.rowcount].
    The ON DELETE CASCADE of password_history.credential_id acts only when
    foreign key enforcement is on. *)
Definition delete_credentials (i : Z) (fk : bool) (db : Database) : exception + Database * nat :=
  if decide (binds i db) then
    inr (without_credential fk i db,
         length (filter (λ r, Cred.id r = i) (credentials db)))
  else inl overflow.

(** *** LIKE *)

(** sqlite folds the case of the 26 ASCII letters only. *)
Definition fold_case (c : ascii) : ascii :=
  if in_range 65 90 c then ascii_of_nat (ord c + 32) else c.

Definition eqb_nocase (c d : ascii) : bool := Ascii.eqb (fold_case c) (fold_case d).

(** sqlite's [patternCompare] for LIKE: [%] stands for any run of
    characters, [_] for any one character, and there is no escape
    character. *)
Fixpoint pattern_compare (pattern s : string) : bool :=
  match pattern with
  | EmptyString => match s with EmptyString => true | _ => false end
  | String c pattern' =>
      if Ascii.eqb c "%" then
        (fix skip (s : string) : bool :=
           pattern_compare pattern' s ||
           match s with
           | EmptyString => false
           | String _ s' => skip s'
           end) s
      else
        match s with
        | EmptyString => false
        | String d s' =>
            (Ascii.eqb c "_" || eqb_nocase c d) && pattern_compare pattern' s'
        end
  end.

(** A text as sqlite's LIKE reads it: up to its first NUL character. *)
Fixpoint c_str (s : string) : string :=
  match s with
  | EmptyString => EmptyString
  | String c s' => if Ascii.eqb c zero then EmptyString else String c (c_str s')
  end.

(** [like pattern s] is sqlite's [s LIKE pattern]; both texts are read as
    NUL-terminated. *)
Definition like (pattern s : string) : bool :=
  pattern_compare (c_str pattern) (c_str s).

(** [x LIKE ?] on a nullable column: NULL matches nothing. *)
Definition like_null (pattern : string) (x : option string) : bool :=
  match x with
  | Some s => like pattern s
  | None => false
  end.

(** *** ORDER BY *)

Definition by_service_name (r1 r2 : Cred.row) : Prop :=
  String.le (Cred.service_name r1) (Cred.service_name r2).

Definition by_service_name_username (r1 r2 : Cred.row) : Prop :=
  Cred.service_name r1 ≠ Cred.service_name r2 ∧ by_service_name r1 r2
  ∨ Cred.service_name r1 = Cred.service_name r2
    ∧ String.le (Cred.username r1) (Cred.username r2).

#[global] Instance by_service_name_dec : RelDecision by_service_name.
Proof. intros r1 r2. unfold by_service_name. apply _. Defined.

#[global] Instance by_service_name_username_dec : RelDecision by_service_name_username.
Proof. intros r1 r2. unfold by_service_name_username. apply _. Defined.

(** *** Rows as dictionaries *)

(** [dict(row)] for SELECT * FROM credentials *)
Definition dict_all (r : Cred.row) : gmap string value :=
  <["last_accessed" := text_or_null (Cred.last_accessed r)]>
  (<["updated_at" := Text (Cred.updated_at r)]>
  (<["created_at" := Text (Cred.created_at r)]>
  (<["category" := Text (Cred.category r)]>
  (<["notes" := text_or_null (Cred.notes r)]>
  (<["password_strength" := Text (Cred.password_strength r)]>
  (<["password_encrypted" := Text (Cred.password_encrypted r)]>
  (<["email" := text_or_null (Cred.email r)]>
  (<["username" := Text (Cred.username r)]>
  (<["service_name" := Text (Cred.service_name r)]>
  (<["id" := Integer (Cred.id r)]> ∅)))))))))).

(** [dict(row)] for the column list of [get_all_credentials] *)
Definition dict_listing (r : Cred.row) : gmap string value :=
  delete "last_accessed" (dict_all r).

(** [dict(row)] for the column list of [search_credentials] *)
Definition dict_search (r : Cred.row) : gmap string value :=
  <["category" := Text (Cred.category r)]>
  (<["password_strength" := Text (Cred.password_strength r)]>
  (<["email" := text_or_null (Cred.email r)]>
  (<["username" := Text (Cred.username r)]>
  (<["service_name" := Text (Cred.service_name r)]>
  (<["id" := Integer (Cred.id r)]> ∅))))).

(** [d[key]] *)
Definition getitem (d : gmap string value) (key : string) : M value :=
  match d !! key with
  | Some v => mret v
  | None => raise (KeyError key)
  end.

(** [v.encode()], which only a [str] has *)
Definition encode (v : value) : M string :=
  match v with
  | Text s => mret s
  | Null => raise (AttributeError "'NoneType' object has no attribute 'encode'")
  | Integer _ => raise (AttributeError "'int' object has no attribute 'encode'")
  end.

(** *** GROUP BY *)

(** SELECT k, COUNT( * ) ... GROUP BY k over the column values [keys]: one
    row for each distinct value. *)
Definition group_count (keys : list string) : list (string * nat) :=
  (λ k, (k, length (filter (λ k', k' = k) keys))) <$> remove_dups keys.

(** [{row[0]: row[1] for row in rows}] *)
Definition dict_of_rows (rows : list (string * nat)) : gmap string nat :=
  foldl (λ d row, <[row.1 := row.2]> d) ∅ rows.

(** The dictionary that [get_statistics] returns; [None] stands for the
    empty dictionary of its exception handler. *)
Module Stats.
Record t := mk {
  total_credentials : nat;
  by_category : gmap string nat;
  by_strength : gmap string nat
}.
End Stats.

(** The keyword arguments of [update_credential] that the method looks at;
    any other keyword is ignored by it. A field is [None] when the keyword
    is absent. *)
Module Kwargs.
Record t := mk {
  password : option string;
  service_name : option string;
  username : option string;
  email : option (option string);
  notes : option (option string);
  category : option string
}.
End Kwargs.

(** ** The methods of [CredentialDatabase] *)

Section methods.
Context `{!Cipher}.

Definition _encrypt_password (iv : nonce) (password : string) : string :=
  encrypt iv password.

Definition _decrypt_password (encrypted_password : value) : M string :=
  token ← encode encrypted_password;
  match decrypt token with
  | Some password => mret password
  | None => raise InvalidToken
  end.

Definition add_credential (service_name username password : string)
    (email notes : option string) (category : string)
    (iv : nonce) (now : string) : Connection → Result.t * Connection :=
  try_except
    (let encrypted_pwd := _encrypt_password iv password in
     let strength := _calculate_password_strength password in
     credential_id ← execute_dml
       (insert_credentials service_name username email encrypted_pwd strength
          notes category now);
     execute_dml (insert_password_history credential_id encrypted_pwd now);;
     commit;;
     mret (Result.mk true ("Credential saved: " +:+ service_name) (Some credential_id)))
    (λ e, match e with
          | IntegrityError _ =>
              Result.mk false
                ("Credential already exists: " +:+ service_name +:+ " - " +:+ username) None
          | _ => Result.mk false ("Error saving credential: " +:+ str e) None
          end).

(** The body of the loop of [get_all_credentials]. *)
Definition listing_entry (decrypt_passwords : bool) (cred : gmap string value)
    : M (gmap string value) :=
  cred ← (if decrypt_passwords then
            token ← getitem cred "password_encrypted";
            password ← _decrypt_password token;
            mret (<["password" := Text password]> cred)
          else mret cred);
  mret (delete "password_encrypted" cred).

Definition get_all_credentials (decrypt_passwords : bool)
    : Connection → list (gmap string value) * Connection :=
  try_except
    (rows ← execute_query
       (λ db, dict_listing <$> merge_sort by_service_name_username (credentials db));
     mapM (listing_entry decrypt_passwords) rows)
    (λ _, []).

Definition get_credential_by_id (credential_id : Z) (now : string)
    : Connection → option (gmap string value) * Connection :=
  try_except
    (execute_dml (update_last_accessed credential_id now);;
     result ← execute_query (select_by_id credential_id);
     commit;;
     match result with
     | Some row =>
         let cred := dict_all row in
         token ← getitem cred "password_encrypted";
         password ← _decrypt_password token;
         let cred := <["password" := Text password]> cred in
         let cred := delete "password_encrypted" cred in
         mret (Some cred)
     | None => mret None
     end)
    (λ _, None).

(** The entries that the loop over 'service_name', 'username', 'email',
    'notes', 'category' appends to [update_fields]. *)
Definition plain_fields (kwargs : Kwargs.t) : list assignment :=
  omap id
    [set_service_name <$> Kwargs.service_name kwargs;
     set_username <$> Kwargs.username kwargs;
     set_email <$> Kwargs.email kwargs;
     set_notes <$> Kwargs.notes kwargs;
     set_category <$> Kwargs.category kwargs].

Definition update_credential (credential_id : Z) (kwargs : Kwargs.t)
    (iv : nonce) (now : string) : Connection → Result.t * Connection :=
  try_except
    (update_fields ←
       match Kwargs.password kwargs with
       | Some password =>
           let encrypted_pwd := _encrypt_password iv password in
           let strength := _calculate_password_strength password in
           execute_dml (insert_password_history credential_id encrypted_pwd now);;
           mret [set_password_encrypted encrypted_pwd; set_password_strength strength]
       | None => mret []
       end;
     let update_fields := update_fields ++ plain_fields kwargs in
     match update_fields with
     | _ :: _ =>
         let update_fields := update_fields ++ [set_updated_at] in
         execute_dml (update_credentials update_fields credential_id now);;
         commit;;
         mret (Result.mk true "Credential updated" None)
     | [] => mret (Result.mk false "No updates provided" None)
     end)
    (λ e, Result.mk false ("Update error: " +:+ str e) None).

Definition delete_credential (credential_id : Z) : Connection → Result.t * Connection :=
  try_except
    (rowcount ← execute_dml (delete_credentials credential_id);
     if (0 <? rowcount)%nat then
       commit;;
       mret (Result.mk true "Credential deleted" None)
     else mret (Result.mk false "Credential not found" None))
    (λ e, Result.mk false ("Delete error: " +:+ str e) None).

(** The WHERE clause of [search_credentials]. *)
Definition search_match (pattern : string) (r : Cred.row) : bool :=
  like pattern (Cred.service_name r) || like pattern (Cred.username r)
  || like_null pattern (Cred.email r) || like pattern (Cred.category r).

(** ORDER BY service_name leaves the order of rows of one service_name
    open; sqlite returns them in the order of the index of
    UNIQUE(service_name, username), that is by username. *)
Definition search_credentials (search_term : string)
    : Connection → list (gmap string value) * Connection :=
  try_except
    (let pattern := "%" +:+ search_term +:+ "%" in
     execute_query
       (λ db, dict_search <$>
                merge_sort by_service_name_username
                  (filter (search_match pattern) (credentials db))))
    (λ _, []).

Definition get_statistics : Connection → option Stats.t * Connection :=
  try_except
    (total ← execute_query (λ db, length (credentials db));
     categories ← execute_query (λ db, group_count (Cred.category <$> credentials db));
     let by_category := dict_of_rows categories in
     strengths ← execute_query (λ db, group_count (Cred.password_strength <$> credentials db));
     let by_strength := dict_of_rows strengths in
     mret (Some (Stats.mk total by_category by_strength)))
    (λ _, None).

(** *** The public interface as a transition system *)

Inductive call :=
  | Add (service_name username password : string) (email notes : option string)
        (category : string) (iv : nonce)
  | GetAll (decrypt_passwords : bool)
  | GetById (credential_id : Z)
  | Update (credential_id : Z) (kwargs : Kwargs.t) (iv : nonce)
  | Delete (credential_id : Z)
  | Search (search_term : string)
  | Statistics.

(** The connection after a call made at time [now]. *)
Definition step (now : string) (k : call) (c : Connection) : Connection :=
  match k with
  | Add sn un pw em nt ct iv => (add_credential sn un pw em nt ct iv now c).2
  | GetAll d => (get_all_credentials d c).2
  | GetById i => (get_credential_by_id i now c).2
  | Update i kw iv => (update_credential i kw iv now c).2
  | Delete i => (delete_credential i c).2
  | Search t => (search_credentials t c).2
  | Statistics => (get_statistics c).2
  end.

(** A session: calls made one after the other, each at its time. *)
Fixpoint session (calls : list (string * call)) (c : Connection) : Connection :=
  match calls with
  | [] => c
  | (now, k) :: calls' => session calls' (step now k c)
  end.

(** The password text and the entropy of a call that writes a password. *)
Definition written_password (k : call) : option (nonce * string) :=
  match k with
  | Add _ _ pw _ _ _ iv => Some (iv, pw)
  | Update _ kw iv => (λ pw, (iv, pw)) <$> Kwargs.password kw
  | _ => None
  end.

(** Every [password_encrypted] cell of a database. *)
Definition ciphertexts (db : Database) : list string :=
  (Cred.password_encrypted <$> credentials db)
  ++ (Hist.password_encrypted <$> password_history db).

(** Every [password_encrypted] cell the connection holds, committed or
    written in the open transaction. *)
Definition stored (c : Connection) : list string :=
  ciphertexts (committed c) ++ ciphertexts (view c).

(** [v] is the token that call [k] made from the password it was given,
    and it is not that password. *)
Definition fresh_ciphertext (k : call) (v : string) : Prop :=
  ∃ iv P, written_password k = Some (iv, P) ∧ v = _encrypt_password iv P ∧ v ≠ P.

(** Every cell of [db] was stored in [c] already or is the token made by
    call [k]. *)
Definition accounted (c : Connection) (k : call) (db : Database) : Prop :=
  ∀ v, v ∈ ciphertexts db → v ∈ stored c ∨ fresh_ciphertext k v.
End methods.

(** ** Substring search, as the specification words it *)

Fixpoint prefix_nocase (term s : string) : bool :=
  match term with
  | EmptyString => true
  | String c term' =>
      match s with
      | EmptyString => false
      | String d s' => eqb_nocase c d && prefix_nocase term' s'
      end
  end.

(** [term] occurs in [s], letter case of A-Z ignored. *)
Fixpoint substring_nocase (term s : string) : bool :=
  prefix_nocase term s ||
  match s with
  | EmptyString => false
  | String _ s' => substring_nocase term s'
  end.



(** The two wildcard characters of LIKE. *)
Definition wildcard (c : ascii) : bool := Ascii.eqb c "%" || Ascii.eqb c "_".

(** The NUL character. *)
Definition is_nul (c : ascii) : bool := Ascii.eqb c zero.


(** The sum of the counts of a statistics dictionary. *)
Definition dict_sum (d : gmap string nat) : nat :=
  map_fold (λ _ n acc, (n + acc)%nat) 0%nat d.

(** One point for a test that holds. *)
Definition point (b : bool) : nat := if b then 1%nat else 0%nat.

(** ** The reference cipher and sample vaults *)

(** The reference cipher keyed with [key], standing in for [Fernet(key)]
    where the model is run; its two laws are checked here. *)
Definition Fernet (key : string) : Cipher.
Proof.
  refine {| encrypt := ref_encrypt key; decrypt := ref_decrypt key |}.
  - intros iv p. unfold ref_decrypt, ref_encrypt. simpl.
    rewrite Ascii.eqb_refl. simpl. f_equal.
    generalize (xor_ascii (digest key) (digest iv)). intros pad.
    induction p as [|c p IH]; simpl; [done|]. rewrite IH. f_equal.
    destruct pad, c; simpl.
    f_equal; rewrite <- xorb_assoc, xorb_nilpotent; apply xorb_false_l.
  - intros iv p. unfold ref_encrypt, len. simpl.
    generalize (xor_ascii (digest key) (digest iv)). intros pad.
    assert (String.length (mask pad p) = String.length p) as ->; [|lia].
    induction p as [|c p IH]; simpl; [done|]. by rewrite IH.
Defined.

Definition vault_key : string := "0123456789abcdef".

(** A vault opened on a new file. *)
Definition new_vault : Connection := _connect empty_database.

(** The vault after add_credential("GitHub", "alice", "s3cret"). *)
Definition vault_one : Connection :=
  (@add_credential (Fernet vault_key) "GitHub" "alice" "s3cret" None None "General"
     "iv-1" "2024-01-01 10:00:00" new_vault).2.

(** The credentials row of [vault_one]. *)
Definition github_row : Cred.row :=
  Cred.mk 1 "GitHub" "alice" None (ref_encrypt vault_key "iv-1" "s3cret") "Weak" None
    "General" "2024-01-01 10:00:00" "2024-01-01 10:00:00" None.

(** The vault of the search example: GitHub/alice, Gitlab/bob,
    Twitter/carol. *)
Definition vault_three : Connection :=
  let c := (@add_credential (Fernet vault_key) "Twitter" "carol" "Tr0ub4dor&3" None None
              "Social" "iv-3" "2024-01-03 10:00:00" vault_one).2 in
  (@add_credential (Fernet vault_key) "Gitlab" "bob" "correct horse" (Some "bob@example.org")
     None "General" "iv-2" "2024-01-02 10:00:00" c).2.

(** A vault file whose only row holds a cell that is no token. *)
Definition damaged_file : Database :=
  {| credentials :=
       [Cred.mk 1 "GitHub" "alice" None "not-a-token" "Weak" None "General"
          "2024-01-01 10:00:00" "2024-01-01 10:00:00" None];
     password_history := [Hist.mk 1 1 "not-a-token" "2024-01-01 10:00:00"];
     seq_credentials := 1;
     seq_password_history := 1 |}.

(** ** Closing, constraints and the key file *)

(** [close()]: [connection.close()] commits nothing, so the file keeps what
    was committed and an open transaction is lost. *)
Definition close (c : Connection) : Database := committed c.

(** The columns of UNIQUE(service_name, username). *)
Definition unique_key (r : Cred.row) : string * string :=
  (Cred.service_name r, Cred.username r).

(** The constraints of the schema that hold of a database: the two PRIMARY
    KEYs, UNIQUE(service_name, username), and no row id above its table's
    [sqlite_sequence] entry. *)
Record integrity (db : Database) : Prop := {
  credential_ids_distinct : NoDup (Cred.id <$> credentials db);
  credential_keys_distinct : NoDup (unique_key <$> credentials db);
  credential_ids_issued : Forall (λ r, Cred.id r ≤ seq_credentials db) (credentials db);
  history_ids_distinct : NoDup (Hist.id <$> password_history db);
  history_ids_issued :
    Forall (λ h, Hist.id h ≤ seq_password_history db) (password_history db)
}.

(** Whether a call made at [now] on [c] ends in [connection.commit()]: a
    point read does when its id binds, an add, update or delete does when
    it returns success, the other reads never do. *)
Definition commits `{!Cipher} (now : string) (k : call) (c : Connection) : bool :=
  match k with
  | Add sn un pw em nt ct iv => Result.success (add_credential sn un pw em nt ct iv now c).1
  | Update i kw iv => Result.success (update_credential i kw iv now c).1
  | Delete i => Result.success (delete_credential i c).1
  | GetById i => bool_decide (binds i (view c))
  | GetAll _ | Search _ | Statistics => false
  end.

(** What [_get_or_create_key] finds at "data/.key". *)
Inductive key_store :=
  | no_directory
  | no_key_file
  | key_file (content : string).

(** [_get_or_create_key]: the content of the key file when it exists;
    else the key that [Fernet.generate_key()] draws, written to the file.
    [None] stands for the [FileNotFoundError] of [open] when the directory
    "data" is missing. *)
Definition _get_or_create_key (generated : string) (fs : key_store)
    : option string * key_store :=
  match fs with
  | key_file content => (Some content, fs)
  | no_key_file => (Some generated, key_file generated)
  | no_directory => (None, no_directory)
  end.

(** The SET list that [update_credential] sends, for its keyword
    arguments. *)
Definition update_fields_of `{!Cipher} (kwargs : Kwargs.t) (iv : nonce) : list assignment :=
  match Kwargs.password kwargs with
  | Some password =>
      [set_password_encrypted (_encrypt_password iv password);
       set_password_strength (_calculate_password_strength password)]
  | None => []
  end ++ plain_fields kwargs ++ [set_updated_at].

(** The database on which the UPDATE of [update_credential] runs: the view
    with the password_history row of the new password, when there is one. *)
Definition history_step `{!Cipher} (i : Z) (kwargs : Kwargs.t) (iv : nonce) (now : string)
    (db : Database) : Database :=
  match Kwargs.password kwargs with
  | Some password =>
      with_history
        (Hist.mk (next_history_id db) i (_encrypt_password iv password) now) db
  | None => db
  end.

(** A text with its letters A-Z replaced by a-z, to state that a search
    does not depend on the letter case of its term. *)
Fixpoint lower (s : string) : string :=
  match s with
  | EmptyString => EmptyString
  | String c s' => String (fold_case c) (lower s')
  end.

(** * Properties *)

(** ** Strength scorer *)

Lemma any_spec (f : ascii → bool) (s : string) :
  any f s = true ↔ ∃ c, c ∈ list_ascii_of_string s ∧ f c = true.
Proof.
  induction s as [|c s IH]; simpl.
  - split; [done|]. intros (c & Hc & _). by apply elem_of_nil in Hc.
  - rewrite orb_true_iff, IH. split.
    + intros [Hc|(d & Hd & Hf)]; [exists c|exists d]; split; auto; constructor; done.
    + intros (d & Hd & Hf). apply elem_of_cons in Hd as [->|Hd]; [by left|].
      right. by exists d.
Qed.

Lemma password_score_points (password : string) :
  password_score password =
    (point (12 <=? len password) + point (16 <=? len password)
     + point (any isupper password) + point (any islower password)
     + point (any isdigit password)
     + point (any (char_in punctuation) password))%nat.
Proof.
  unfold password_score.
  destruct (12 <=? len password)%nat, (16 <=? len password)%nat,
    (any isupper password), (any islower password), (any isdigit password),
    (any (char_in punctuation) password); reflexivity.
Qed.

(** C4, as the specification states it, fails on its third example:
    "Str0ng!Passw0rd" has 15 characters, so the test [len >= 16] gives no
    point and the score is 5, not 6. *)
Lemma strength_example_score_not_6 :
  len "Str0ng!Passw0rd" = 15%nat ∧ password_score "Str0ng!Passw0rd" ≠ 6%nat.
Proof. split; [reflexivity|]. vm_compute. discriminate. Qed.

(** C4 (amended): the scorer gives one point for each of length >= 12,
    length >= 16, an uppercase letter, a lowercase letter, a digit, a
    character of the punctuation set; the result is "Strong" iff the total
    is at least 5, "Medium" iff it is 3 or 4, "Weak" iff it is below 3;
    "abc" scores 1 (Weak), "Password1" scores 3 (Medium) and
    "Str0ng!Passw0rd" scores 5 (Strong). *)
Theorem strength_scoring :
  (∀ password,
     let score := password_score password in
     score = (point (12 <=? len password) + point (16 <=? len password)
              + point (any isupper password) + point (any islower password)
              + point (any isdigit password)
              + point (any (char_in punctuation) password))%nat
     ∧ (_calculate_password_strength password = "Strong" ↔ (5 ≤ score)%nat)
     ∧ (_calculate_password_strength password = "Medium" ↔ (3 ≤ score < 5)%nat)
     ∧ (_calculate_password_strength password = "Weak" ↔ (score < 3)%nat))
  ∧ (password_score "abc" = 1%nat ∧ _calculate_password_strength "abc" = "Weak")
  ∧ (password_score "Password1" = 3%nat
     ∧ _calculate_password_strength "Password1" = "Medium")
  ∧ (password_score "Str0ng!Passw0rd" = 5%nat
     ∧ _calculate_password_strength "Str0ng!Passw0rd" = "Strong").
Proof.
  split; [|by vm_compute].
  intros password score. split; [apply password_score_points|].
  unfold _calculate_password_strength. fold score.
  destruct (5 <=? score)%nat eqn:H5; [apply Nat.leb_le in H5|apply Nat.leb_gt in H5].
  { repeat split; try done; try lia. }
  destruct (3 <=? score)%nat eqn:H3; [apply Nat.leb_le in H3|apply Nat.leb_gt in H3].
  { repeat split; try done; try lia. }
  repeat split; try done; try lia.
Qed.

(** ** Statistics *)

Lemma dict_sum_empty : dict_sum ∅ = 0%nat.
Proof. unfold dict_sum. apply map_fold_empty. Qed.

Lemma dict_sum_insert (d : gmap string nat) (k : string) (n : nat) :
  d !! k = None → dict_sum (<[k:=n]> d) = (n + dict_sum d)%nat.
Proof.
  intros Hk. unfold dict_sum.
  rewrite map_fold_insert_L; [done| |done].
  intros; lia.
Qed.

Lemma dict_of_rows_sum (rows : list (string * nat)) (d : gmap string nat) :
  NoDup rows.*1 → (∀ k, k ∈ rows.*1 → d !! k = None) →
  dict_sum (foldl (λ d row, <[row.1 := row.2]> d) d rows)
  = (sum_list rows.*2 + dict_sum d)%nat.
Proof.
  revert d. induction rows as [|[k n] rows IH]; intros d Hnd Hfresh; csimpl; [done|].
  apply NoDup_cons in Hnd as [Hk Hnd].
  rewrite IH; [|done|].
  - rewrite dict_sum_insert; [lia|]. apply Hfresh. left.
  - intros k' Hk'. rewrite lookup_insert_ne.
    + apply Hfresh. by right.
    + intros ->. done.
Qed.

Lemma indicator_sum_absent (k : string) (D : list string) :
  k ∉ D → sum_list ((λ d, if decide (k = d) then 1 else 0)%nat <$> D) = 0%nat.
Proof.
  induction D as [|e D IH]; intros Hk; csimpl; [done|].
  rewrite decide_False by (intros ->; apply Hk; left).
  apply IH. intros ?. apply Hk. by right.
Qed.

Lemma indicator_sum (k : string) (D : list string) :
  NoDup D → k ∈ D →
  sum_list ((λ d, if decide (k = d) then 1 else 0)%nat <$> D) = 1%nat.
Proof.
  induction 1 as [|d D Hd Hnd IH]; intros Hin; [by apply elem_of_nil in Hin|].
  csimpl. apply elem_of_cons in Hin as [->|Hin].
  - rewrite decide_True by done. by rewrite indicator_sum_absent.
  - rewrite decide_False by (intros ->; done). by rewrite IH.
Qed.

Lemma group_sizes_sum (keys D : list string) :
  NoDup D → (∀ k, k ∈ keys → k ∈ D) →
  sum_list ((λ k, length (filter (λ k', k' = k) keys)) <$> D) = length keys.
Proof.
  intros Hnd. induction keys as [|x keys IH]; intros Hcover.
  - clear. induction D as [|d D IHD]; [done|].
    rewrite fmap_cons. cbn [sum_list_with]. by rewrite IHD.
  - change (length (x :: keys)) with (1 + length keys)%nat.
    rewrite <- IH by (intros k Hk; apply Hcover; by right).
    rewrite <- (indicator_sum x D Hnd) by (apply Hcover; left).
    clear. induction D as [|d D IHD]; [done|].
    rewrite !fmap_cons. cbn [sum_list_with]. rewrite IHD, filter_cons.
    destruct (decide (x = d)); simpl; lia.
Qed.

Lemma group_count_sum (keys : list string) :
  dict_sum (dict_of_rows (group_count keys)) = length keys.
Proof.
  unfold dict_of_rows. rewrite dict_of_rows_sum.
  - rewrite dict_sum_empty, Nat.add_0_r. unfold group_count.
    rewrite <- list_fmap_compose. simpl.
    apply group_sizes_sum; [apply NoDup_remove_dups|].
    intros k. by rewrite elem_of_remove_dups.
  - unfold group_count. rewrite <- list_fmap_compose. simpl.
    rewrite list_fmap_id. apply NoDup_remove_dups.
  - intros. apply lookup_empty.
Qed.

(** C10: [get_statistics] returns a dictionary whose [total_credentials] is
    the number of credential rows, and the counts of [by_category] and
    those of [by_strength] both add up to it. *)
Theorem statistics_consistent (c : Connection) :
  ∃ s, get_statistics c = (Some s, c)
       ∧ Stats.total_credentials s = length (credentials (view c))
       ∧ dict_sum (Stats.by_category s) = Stats.total_credentials s
       ∧ dict_sum (Stats.by_strength s) = Stats.total_credentials s.
Proof.
  eexists. split; [reflexivity|]. simpl.
  rewrite !group_count_sum, !length_fmap. done.
Qed.

(** ** The methods, statement by statement *)

Ltac run :=
  unfold try_except, mbind, M_bind, mret, M_ret, raise, execute_dml,
    execute_query, commit.

Lemma view_working (c : Connection) (db : Database) : view (working c db) = db.
Proof. done. Qed.

Lemma view_settled (c : Connection) (db : Database) : view (settled c db) = db.
Proof. done. Qed.

Lemma settled_working (c : Connection) (db db' : Database) :
  settled (working c db) db' = settled c db'.
Proof. done. Qed.

Lemma working_working (c : Connection) (db db' : Database) :
  working (working c db) db' = working c db'.
Proof. done. Qed.

Lemma next_rowid_fresh (seq : Z) (ids : list Z) (i : Z) :
  i ∈ ids → i < next_rowid seq ids.
Proof.
  unfold next_rowid. induction ids as [|j ids IH]; intros Hi.
  - by apply elem_of_nil in Hi.
  - apply elem_of_cons in Hi as [->|Hi]; simpl; [lia|].
    specialize (IH Hi). lia.
Qed.

Lemma next_credential_id_fresh (db : Database) (r : Cred.row) :
  r ∈ credentials db → Cred.id r ≠ next_credential_id db.
Proof.
  intros Hr. unfold next_credential_id.
  pose proof (next_rowid_fresh (seq_credentials db) (Cred.id <$> credentials db) (Cred.id r)) as H.
  assert (Cred.id r ∈ Cred.id <$> credentials db) as Hin by (apply list_elem_of_fmap; eauto).
  specialize (H Hin). lia.
Qed.

Lemma select_by_id_touched (i : Z) (now : string) (db : Database) :
  select_by_id i (with_updated (set_last_accessed now) i db)
  = set_last_accessed now <$> select_by_id i db.
Proof.
  unfold select_by_id, with_updated, update_where_id. simpl.
  induction (credentials db) as [|r rows IH]; [done|].
  rewrite fmap_cons, !filter_cons.
  destruct (decide (Cred.id r = i)) as [Hr|Hr].
  - rewrite decide_True by done. done.
  - rewrite decide_False by done. apply IH.
Qed.

Lemma select_by_id_elem (i : Z) (db : Database) (r : Cred.row) :
  select_by_id i db = Some r → r ∈ credentials db ∧ Cred.id r = i.
Proof.
  unfold select_by_id. intros Hr.
  apply head_Some_elem_of in Hr. by apply list_elem_of_filter in Hr as [? ?].
Qed.

Lemma select_by_id_none (i : Z) (db : Database) :
  select_by_id i db = None ↔ ¬ id_exists i db.
Proof.
  unfold select_by_id, id_exists. rewrite Exists_exists. split.
  - intros Hnone (r & Hr & Hi).
    assert (r ∈ filter (λ r, Cred.id r = i) (credentials db)) as Hin
      by (by apply list_elem_of_filter).
    destruct (filter _ _); [by apply elem_of_nil in Hin|done].
  - intros Hno. destruct (filter _ _) as [|r rows] eqn:Hf; [done|].
    exfalso. apply Hno. exists r.
    assert (r ∈ filter (λ r, Cred.id r = i) (credentials db)) as Hin
      by (rewrite Hf; left).
    apply list_elem_of_filter in Hin as [? ?]. done.
Qed.

Lemma id_exists_binds (i : Z) (db : Database) : id_exists i db → binds i db.
Proof. intros Hid. by right. Qed.

Lemma select_by_id_binds (i : Z) (db : Database) (r : Cred.row) :
  select_by_id i db = Some r → binds i db.
Proof.
  intros Hsel. apply id_exists_binds. apply dec_stable. intros Hno.
  apply select_by_id_none in Hno. congruence.
Qed.

Lemma not_binds_absent (i : Z) (db : Database) : ¬ binds i db → ¬ id_exists i db.
Proof. intros Hno Hid. apply Hno. by right. Qed.

Lemma dict_all_password_encrypted (r : Cred.row) :
  dict_all r !! "password_encrypted" = Some (Text (Cred.password_encrypted r)).
Proof. reflexivity. Qed.

Lemma mapM_cons_eq {A B} (f : A → M B) (x : A) (l : list A) (c : Connection) :
  mapM f (x :: l) c =
    match f x c with
    | (inr y, c1) =>
        match mapM f l c1 with
        | (inr k, c2) => (inr (y :: k), c2)
        | (inl e, c2) => (inl e, c2)
        end
    | (inl e, c1) => (inl e, c1)
    end.
Proof. reflexivity. Qed.

Section method_equations.
Context `{!Cipher}.

Lemma get_credential_by_id_overflow i now c :
  ¬ binds i (view c) → get_credential_by_id i now c = (None, working c (view c)).
Proof.
  intros Hno. unfold get_credential_by_id. run. unfold update_last_accessed.
  by rewrite decide_False.
Qed.

Lemma get_credential_by_id_eq i now c :
  binds i (view c) →
  get_credential_by_id i now c =
    let c' := settled c (with_updated (set_last_accessed now) i (view c)) in
    match select_by_id i (view c) with
    | Some r =>
        match decrypt (Cred.password_encrypted r) with
        | Some p =>
            (Some (delete "password_encrypted"
                     (<["password" := Text p]> (dict_all (set_last_accessed now r)))), c')
        | None => (None, c')
        end
    | None => (None, c')
    end.
Proof.
  intros Hbinds. unfold get_credential_by_id. run. unfold update_last_accessed.
  rewrite decide_True by done.
  rewrite view_working, select_by_id_touched.
  destruct (select_by_id i (view c)) as [r|]; [|done]. simpl.
  unfold getitem. rewrite dict_all_password_encrypted.
  unfold _decrypt_password, encode. run. simpl.
  destruct (decrypt (Cred.password_encrypted r)); done.
Qed.

Lemma add_credential_fresh sn un pw em nt cat iv now c :
  ¬ key_exists sn un (view c) →
  let r := new_credential (view c) sn un em (_encrypt_password iv pw)
             (_calculate_password_strength pw) nt cat now in
  let db := with_credential r (view c) in
  add_credential sn un pw em nt cat iv now c =
    (Result.mk true ("Credential saved: " +:+ sn) (Some (Cred.id r)),
     settled c (with_history
                  (Hist.mk (next_history_id db) (Cred.id r) (_encrypt_password iv pw) now)
                  db)).
Proof.
  intros Hfresh r db. unfold add_credential. run.
  unfold insert_credentials. rewrite decide_False by done.
  rewrite view_working. unfold insert_password_history.
  assert (id_exists (next_credential_id (view c)) (with_credential r (view c))) as Hid.
  { unfold id_exists. simpl. apply Exists_app. right. by constructor. }
  rewrite decide_True by (by apply id_exists_binds).
  rewrite (bool_decide_eq_true_2 _ Hid), andb_false_r. done.
Qed.

Lemma add_credential_duplicate sn un pw em nt cat iv now c :
  key_exists sn un (view c) →
  add_credential sn un pw em nt cat iv now c =
    (Result.mk false ("Credential already exists: " +:+ sn +:+ " - " +:+ un) None,
     working c (view c)).
Proof.
  intros Hdup. unfold add_credential. run.
  unfold insert_credentials. by rewrite decide_True.
Qed.

Lemma delete_credential_overflow i c :
  ¬ binds i (view c) →
  delete_credential i c
  = (Result.mk false ("Delete error: " +:+ str overflow) None, working c (view c)).
Proof.
  intros Hno. unfold delete_credential. run. unfold delete_credentials.
  by rewrite decide_False.
Qed.

Lemma delete_credential_eq i c :
  binds i (view c) →
  delete_credential i c =
    let db := without_credential (foreign_keys c) i (view c) in
    if (0 <? length (filter (λ r, Cred.id r = i) (credentials (view c))))%nat
    then (Result.mk true "Credential deleted" None, settled c db)
    else (Result.mk false "Credential not found" None, working c db).
Proof.
  intros Hbinds. unfold delete_credential. run. unfold delete_credentials.
  rewrite decide_True by done. simpl.
  by destruct (0 <? _)%nat.
Qed.

Lemma listing_entry_state d cred c : (listing_entry d cred c).2 = c.
Proof.
  unfold listing_entry, getitem, _decrypt_password, encode. run.
  destruct d; [|done].
  destruct (cred !! "password_encrypted") as [[| |token]|]; try done.
  by destruct (decrypt token).
Qed.

Lemma mapM_listing_state d rows c : (mapM (listing_entry d) rows c).2 = c.
Proof.
  induction rows as [|cred rows IH]; [done|].
  rewrite mapM_cons_eq.
  pose proof (listing_entry_state d cred c) as Hc.
  destruct (listing_entry d cred c) as [[e|x] c1]; simpl in Hc; subst c1; [done|].
  specialize IH. destruct (mapM (listing_entry d) rows c) as [[e|xs] c2];
    simpl in IH; subst c2; done.
Qed.

Lemma get_all_credentials_state d c : (get_all_credentials d c).2 = c.
Proof.
  unfold get_all_credentials, try_except, execute_query.
  unfold mbind at 1. unfold M_bind at 1.
  match goal with |- context [mapM ?f ?rows c] =>
    pose proof (mapM_listing_state d rows c) as Hc;
    destruct (mapM f rows c) as [[e|x] c1] end.
  all: simpl in Hc; by subst c1.
Qed.

Lemma encrypt_not_plaintext iv p : _encrypt_password iv p ≠ p.
Proof.
  unfold _encrypt_password. intros Heq.
  pose proof (encrypt_longer iv p) as Hlen. rewrite Heq in Hlen. lia.
Qed.
End method_equations.

(** ** No plaintext password reaches a table *)

Lemma elem_of_ciphertexts (db : Database) (v : string) :
  v ∈ ciphertexts db ↔
    (∃ r, r ∈ credentials db ∧ Cred.password_encrypted r = v)
    ∨ (∃ h, h ∈ password_history db ∧ Hist.password_encrypted h = v).
Proof.
  unfold ciphertexts. rewrite elem_of_app, !list_elem_of_fmap.
  split; (intros [(x & H1 & H2)|(x & H1 & H2)]; [left|right]; exists x; by split).
Qed.

Lemma assign_password_encrypted (now : string) (fields : list assignment) (r : Cred.row) :
  Cred.password_encrypted (foldl (assign now) r fields) = Cred.password_encrypted r
  ∨ set_password_encrypted (Cred.password_encrypted (foldl (assign now) r fields)) ∈ fields.
Proof.
  revert r. induction fields as [|a fields IH]; intros r; [by left|].
  simpl. destruct (IH (assign now r a)) as [Heq|Hin].
  - rewrite Heq. destruct r, a; simpl; auto. right. left.
  - right. by right.
Qed.

Lemma plain_fields_no_password (kw : Kwargs.t) (v : string) :
  set_password_encrypted v ∉ plain_fields kw.
Proof.
  unfold plain_fields.
  destruct kw as [pw [sn|] [un|] [em|] [nt|] [ct|]]; simpl; intros Hin;
    repeat (apply elem_of_cons in Hin as [Hin|Hin]; [discriminate|]);
    by apply elem_of_nil in Hin.
Qed.

Section no_plaintext.
Context `{!Cipher} (c : Connection) (k : call).

Lemma accounted_committed : accounted c k (committed c).
Proof. intros v Hv. left. unfold stored. apply elem_of_app. by left. Qed.

Lemma accounted_view : accounted c k (view c).
Proof. intros v Hv. left. unfold stored. apply elem_of_app. by right. Qed.

Lemma accounted_with_history h db :
  accounted c k db → fresh_ciphertext k (Hist.password_encrypted h) →
  accounted c k (with_history h db).
Proof.
  intros Hdb Hh v Hv. apply elem_of_ciphertexts in Hv as [(r & Hr & <-)|(h' & Hh' & <-)].
  - apply Hdb, elem_of_ciphertexts. left. eauto.
  - simpl in Hh'. apply elem_of_app in Hh' as [Hh'|Hh'].
    + apply Hdb, elem_of_ciphertexts. right. eauto.
    + apply list_elem_of_singleton in Hh' as ->. by right.
Qed.

Lemma accounted_with_credential r db :
  accounted c k db → fresh_ciphertext k (Cred.password_encrypted r) →
  accounted c k (with_credential r db).
Proof.
  intros Hdb Hr v Hv. apply elem_of_ciphertexts in Hv as [(r' & Hr' & <-)|(h & Hh & <-)].
  - simpl in Hr'. apply elem_of_app in Hr' as [Hr'|Hr'].
    + apply Hdb, elem_of_ciphertexts. left. eauto.
    + apply list_elem_of_singleton in Hr' as ->. by right.
  - apply Hdb, elem_of_ciphertexts. right. eauto.
Qed.

Lemma accounted_with_updated f i db :
  accounted c k db →
  (∀ r, Cred.password_encrypted (f r) = Cred.password_encrypted r
        ∨ fresh_ciphertext k (Cred.password_encrypted (f r))) →
  accounted c k (with_updated f i db).
Proof.
  intros Hdb Hf v Hv. apply elem_of_ciphertexts in Hv as [(r' & Hr' & <-)|(h & Hh & <-)].
  - simpl in Hr'. unfold update_where_id in Hr'.
    apply list_elem_of_fmap in Hr' as (r & -> & Hr).
    destruct (decide (Cred.id r = i)).
    + destruct (Hf r) as [->|?]; [|by right].
      apply Hdb, elem_of_ciphertexts. left. eauto.
    + apply Hdb, elem_of_ciphertexts. left. eauto.
  - apply Hdb, elem_of_ciphertexts. right. eauto.
Qed.

Lemma accounted_without_credential cascade i db :
  accounted c k db → accounted c k (without_credential cascade i db).
Proof.
  intros Hdb v Hv. apply elem_of_ciphertexts in Hv as [(r & Hr & <-)|(h & Hh & <-)].
  - simpl in Hr. apply list_elem_of_filter in Hr as [_ Hr].
    apply Hdb, elem_of_ciphertexts. left. eauto.
  - simpl in Hh. apply Hdb, elem_of_ciphertexts. right. exists h. split; [|done].
    destruct cascade; [|done]. by apply list_elem_of_filter in Hh as [_ Hh].
Qed.
End no_plaintext.

Section ciphertext_only.
Context `{!Cipher}.

Lemma fresh_ciphertext_intro k iv P :
  written_password k = Some (iv, P) → fresh_ciphertext k (_encrypt_password iv P).
Proof. intros Hk. exists iv, P. split_and!; [done|done|apply encrypt_not_plaintext]. Qed.

Lemma update_fields_fresh k iv P now fields r :
  written_password k = Some (iv, P) →
  (∀ v, set_password_encrypted v ∈ fields → v = _encrypt_password iv P) →
  Cred.password_encrypted (foldl (assign now) r fields) = Cred.password_encrypted r
  ∨ fresh_ciphertext k (Cred.password_encrypted (foldl (assign now) r fields)).
Proof.
  intros Hk Hfields. destruct (assign_password_encrypted now fields r) as [?|Hin]; [by left|].
  right. rewrite (Hfields _ Hin). by apply fresh_ciphertext_intro.
Qed.

Lemma step_accounted now k c :
  accounted c k (committed (step now k c)) ∧ accounted c k (view (step now k c)).
Proof.
  pose proof (accounted_committed c k) as Hcom.
  pose proof (accounted_view c k) as Hview.
  destruct k as [sn un pw em nt cat iv|d|i|i kw iv|i|t|]; simpl.
  - destruct (decide (key_exists sn un (view c))) as [Hdup|Hnew].
    + by rewrite add_credential_duplicate.
    + rewrite add_credential_fresh by done. simpl.
      split; (apply accounted_with_history; [apply accounted_with_credential|]);
        try done; by apply fresh_ciphertext_intro.
  - by rewrite get_all_credentials_state.
  - destruct (decide (binds i (view c))) as [Hbinds|Hbinds];
      [|by rewrite get_credential_by_id_overflow].
    rewrite get_credential_by_id_eq by done.
    assert (accounted c (GetById i) (with_updated (set_last_accessed now) i (view c))).
    { apply accounted_with_updated; [done|]. intros r. by left. }
    destruct (select_by_id i (view c)) as [r|]; [|done].
    by destruct (decrypt (Cred.password_encrypted r)).
  - unfold update_credential. run.
    destruct (Kwargs.password kw) as [pw|] eqn:Hpw.
    + unfold insert_password_history.
      destruct (decide (binds i (view c))) as [Hbinds|Hbinds]; [|done].
      destruct (foreign_keys c && negb (bool_decide (id_exists i (view c)))); [done|].
      cbn [app]. unfold update_credentials.
      destruct (decide (binds i _)) as [Hbinds'|Hbinds']; [|done].
      set (h := Hist.mk (next_history_id (view c)) i (_encrypt_password iv pw) now).
      assert (accounted c (Update i kw iv) (with_history h (view c))) as Hh.
      { apply accounted_with_history; [done|].
        apply fresh_ciphertext_intro. simpl. by rewrite Hpw. }
      destruct (existsb touches_key _ && bool_decide _); [done|].
      cbn [snd]. rewrite view_settled. unfold settled at 1. cbn [committed].
      rewrite view_working.
      split; (apply accounted_with_updated; [done|]).
      all: intros r; apply (update_fields_fresh _ iv pw); [simpl; by rewrite Hpw|].
      all: intros v Hv; apply elem_of_cons in Hv as [Hv|Hv]; [congruence|].
      all: apply elem_of_cons in Hv as [Hv|Hv]; [discriminate|].
      all: apply elem_of_app in Hv as [Hv|Hv];
        [by apply plain_fields_no_password in Hv|].
      all: by apply list_elem_of_singleton in Hv.
    + simpl. destruct (plain_fields kw) as [|a fields] eqn:Hplain; [done|].
      unfold update_credentials.
      destruct (decide (binds i _)) as [Hbinds'|Hbinds']; [|done].
      destruct (existsb touches_key _ && bool_decide _); [done|]. simpl.
      split; (apply accounted_with_updated; [done|]).
      all: intros r; left.
      all: destruct (assign_password_encrypted now ((a :: fields) ++ [set_updated_at]) r)
        as [?|Hin]; [done|].
      all: apply elem_of_app in Hin as [Hin|Hin];
        [rewrite <- Hplain in Hin; by apply plain_fields_no_password in Hin|].
      all: by apply list_elem_of_singleton in Hin.
  - destruct (decide (binds i (view c))) as [Hbinds|Hbinds];
      [|by rewrite delete_credential_overflow].
    rewrite delete_credential_eq by done. simpl.
    assert (accounted c (Delete i) (without_credential (foreign_keys c) i (view c)))
      by by apply accounted_without_credential.
    by destruct (0 <? _)%nat.
  - done.
  - done.
Qed.

(** C1: whatever call is made, every [password_encrypted] cell that the
    connection holds afterwards, in credentials or in password_history,
    committed or in the open transaction, was there before the call or is
    the token [encrypt P] made from the password [P] that the call was
    given (by [add_credential], or by [update_credential] with a
    password), and that token is not [P]. *)
Theorem stored_passwords_are_ciphertexts now k c v :
  v ∈ stored (step now k c) →
  v ∈ stored c
  ∨ ∃ iv P, written_password k = Some (iv, P) ∧ v = _encrypt_password iv P ∧ v ≠ P.
Proof.
  intros Hv. destruct (step_accounted now k c) as [Hcom Hview].
  unfold stored in Hv. apply elem_of_app in Hv as [Hv|Hv]; [by apply Hcom|by apply Hview].
Qed.
End ciphertext_only.

Lemma stored_passwords_are_ciphertexts_witness :
  let k := Add "GitHub" "alice" "s3cret" None None "General" "iv-1" in
  let v := ref_encrypt vault_key "iv-1" "s3cret" in
  v ∈ stored new_vault
  ∨ ∃ iv P, written_password k = Some (iv, P)
            ∧ v = @_encrypt_password (Fernet vault_key) iv P ∧ v ≠ P.
Proof.
  intros k v.
  apply (@stored_passwords_are_ciphertexts (Fernet vault_key) "2024-01-01 10:00:00" k new_vault v).
  vm_compute. left.
Defined.

(** ** Adding and reading back *)

Lemma head_filter_last {A} (P : A → Prop) `{!∀ x, Decision (P x)} (l : list A) (x : A) :
  (∀ y, y ∈ l → ¬ P y) → P x → head (filter P (l ++ [x])) = Some x.
Proof.
  intros Hl Hx. induction l as [|y l IH]; simpl.
  - rewrite filter_cons, decide_True by done. done.
  - rewrite filter_cons, decide_False by (apply Hl; left).
    apply IH. intros z Hz. apply Hl. by right.
Qed.

Lemma select_by_id_added (db : Database) (r : Cred.row) (h : Hist.row) :
  Cred.id r = next_credential_id db →
  select_by_id (Cred.id r) (with_history h (with_credential r db)) = Some r.
Proof.
  intros Hid. unfold select_by_id. simpl. apply head_filter_last; [|done].
  intros y Hy. rewrite Hid. by apply next_credential_id_fresh.
Qed.

Section round_trip.
Context `{!Cipher}.

(** C3: when no credential has the pair (service_name, username),
    [add_credential] succeeds and returns an id, and
    [get_credential_by_id] on that id returns a record whose 'password'
    is the password that was added. *)
Theorem add_then_get_round_trip sn un P em nt cat iv now now' c :
  ¬ key_exists sn un (view c) →
  ∃ i c' d c'',
    add_credential sn un P em nt cat iv now c
      = (Result.mk true ("Credential saved: " +:+ sn) (Some i), c')
    ∧ get_credential_by_id i now' c' = (Some d, c'')
    ∧ d !! "password" = Some (Text P).
Proof.
  intros Hnew. rewrite add_credential_fresh by done. cbv zeta.
  eexists _, _, _, _. split; [reflexivity|].
  set (r := new_credential (view c) sn un em (_encrypt_password iv P)
              (_calculate_password_strength P) nt cat now).
  change (Cred.id r) with (next_credential_id (view c)).
  pose proof (select_by_id_added (view c) r
    (Hist.mk (next_history_id (with_credential r (view c))) (next_credential_id (view c))
       (_encrypt_password iv P) now) eq_refl) as Hsel.
  change (Cred.id r) with (next_credential_id (view c)) in Hsel.
  rewrite get_credential_by_id_eq
    by (rewrite view_settled; by apply (select_by_id_binds _ _ r)).
  rewrite view_settled. cbv zeta. rewrite Hsel.
  change (Cred.password_encrypted r) with (encrypt iv P).
  rewrite decrypt_encrypt. split; [reflexivity|].
  rewrite lookup_delete_ne by done. apply lookup_insert_eq.
Qed.

(** [add_credential] succeeds exactly when the pair is not taken. *)
Lemma add_credential_success_iff sn un P em nt cat iv now c :
  Result.success (add_credential sn un P em nt cat iv now c).1 = true
  ↔ ¬ key_exists sn un (view c).
Proof.
  destruct (decide (key_exists sn un (view c))) as [Hdup|Hnew].
  - rewrite add_credential_duplicate by done. simpl. split; [discriminate|done].
  - rewrite add_credential_fresh by done. simpl. done.
Qed.

(** C5: when a credential with the pair (service_name, username) exists,
    [add_credential] returns the failure "Credential already exists" and
    both tables are as before, in the connection's view and on disk. *)
Theorem add_duplicate_rejected sn un P em nt cat iv now c :
  key_exists sn un (view c) →
  ∃ c', add_credential sn un P em nt cat iv now c
          = (Result.mk false
               ("Credential already exists: " +:+ sn +:+ " - " +:+ un) None, c')
        ∧ credentials (view c') = credentials (view c)
        ∧ password_history (view c') = password_history (view c)
        ∧ committed c' = committed c.
Proof.
  intros Hdup. rewrite add_credential_duplicate by done. by eexists.
Qed.
End round_trip.

Lemma add_then_get_round_trip_witness :
  ∃ i c' d c'',
    @add_credential (Fernet vault_key) "Gitlab" "bob" "correct horse" None None "General"
       "iv-2" "2024-01-02 10:00:00" vault_one
      = (Result.mk true ("Credential saved: " +:+ "Gitlab") (Some i), c')
    ∧ @get_credential_by_id (Fernet vault_key) i "2024-01-05 08:30:00" c' = (Some d, c'')
    ∧ d !! "password" = Some (Text "correct horse").
Proof.
  apply (@add_then_get_round_trip (Fernet vault_key)).
  apply (bool_decide_eq_false_1 (key_exists "Gitlab" "bob" (view vault_one))).
  vm_compute. reflexivity.
Defined.

Lemma add_duplicate_rejected_witness :
  ∃ c', @add_credential (Fernet vault_key) "GitHub" "alice" "another" None None "General"
           "iv-9" "2024-01-02 10:00:00" vault_one
          = (Result.mk false
               ("Credential already exists: " +:+ "GitHub" +:+ " - " +:+ "alice") None, c')
        ∧ credentials (view c') = credentials (view vault_one)
        ∧ password_history (view c') = password_history (view vault_one)
        ∧ committed c' = committed vault_one.
Proof.
  apply (@add_duplicate_rejected (Fernet vault_key)).
  apply (bool_decide_eq_true_1 (key_exists "GitHub" "alice" (view vault_one))).
  vm_compute. reflexivity.
Defined.

(** ** Point reads *)

Section point_read.
Context `{!Cipher}.

(** C7 (amended): for an id whose row [r] holds a token of password [p],
    [get_credential_by_id] sets last_accessed of the row to the current
    time, commits, and returns the row as it is after that update: its
    'last_accessed' is the current time, its 'password' is [p], it has no
    'password_encrypted', and every other column is as stored. *)
Theorem get_by_id_returns_touched_row i now c r p :
  select_by_id i (view c) = Some r →
  decrypt (Cred.password_encrypted r) = Some p →
  ∃ d c',
    get_credential_by_id i now c = (Some d, c')
    ∧ c' = settled c (with_updated (set_last_accessed now) i (view c))
    ∧ select_by_id i (view c') = Some (set_last_accessed now r)
    ∧ d !! "last_accessed" = Some (Text now)
    ∧ d !! "password" = Some (Text p)
    ∧ d !! "password_encrypted" = None
    ∧ ∀ key, key ≠ "last_accessed" → key ≠ "password" → key ≠ "password_encrypted" →
             d !! key = dict_all r !! key.
Proof.
  intros Hsel Hdec.
  rewrite get_credential_by_id_eq by (by apply (select_by_id_binds _ _ r)).
  rewrite Hsel, Hdec. cbv zeta.
  eexists _, _. split; [reflexivity|]. split; [reflexivity|].
  rewrite view_settled, select_by_id_touched, Hsel.
  split_and!; try reflexivity.
  intros key H1 H2 H3.
  rewrite lookup_delete_ne, lookup_insert_ne by congruence.
  unfold dict_all. rewrite !(lookup_insert_ne _ "last_accessed") by congruence. done.
Qed.

(** C9 (amended): when the row of an id holds a cell that does not
    decrypt, [get_credential_by_id] returns [None], as it does for an id
    that has no row, and [get_all_credentials(True)] returns the empty
    list; the update of last_accessed is committed all the same. *)
Theorem decrypt_failure_is_masked i now c r :
  select_by_id i (view c) = Some r →
  decrypt (Cred.password_encrypted r) = None →
  get_credential_by_id i now c
    = (None, settled c (with_updated (set_last_accessed now) i (view c)))
  ∧ get_all_credentials true c = ([], c).
Proof.
  intros Hsel Hdec. split.
  - rewrite get_credential_by_id_eq by (by apply (select_by_id_binds _ _ r)).
    by rewrite Hsel, Hdec.
  - apply select_by_id_elem in Hsel as [Hr _].
    unfold get_all_credentials, try_except, execute_query.
    unfold mbind at 1. unfold M_bind at 1.
    assert (dict_listing r ∈ dict_listing <$>
              merge_sort by_service_name_username (credentials (view c))) as Hin.
    { apply list_elem_of_fmap. exists r. split; [done|].
      by rewrite merge_sort_Permutation. }
    revert Hin. generalize (dict_listing <$>
      merge_sort by_service_name_username (credentials (view c))).
    intros rows Hin. cbv beta iota.
    assert (∃ e, mapM (listing_entry true) rows c = (inl e, c)) as [e He];
      [|by rewrite He].
    induction rows as [|cred rows IH]; [by apply elem_of_nil in Hin|].
    rewrite mapM_cons_eq.
    pose proof (listing_entry_state true cred c) as Hstate.
    destruct (listing_entry true cred c) as [[e|x] c1] eqn:Hentry;
      simpl in Hstate; subst c1; [by exists e|].
    apply elem_of_cons in Hin as [<-|Hin].
    + exfalso. revert Hentry.
      unfold listing_entry, getitem, _decrypt_password, encode. run.
      change (dict_listing r !! "password_encrypted")
        with (Some (Text (Cred.password_encrypted r))).
      simpl. by rewrite Hdec.
    + destruct (IH Hin) as [e ->]. by exists e.
Qed.
End point_read.

Lemma get_by_id_returns_touched_row_witness :
  ∃ d c',
    @get_credential_by_id (Fernet vault_key) 1 "2024-02-01 09:00:00" vault_one = (Some d, c')
    ∧ c' = settled vault_one
             (with_updated (set_last_accessed "2024-02-01 09:00:00") 1 (view vault_one))
    ∧ select_by_id 1 (view c') = Some (set_last_accessed "2024-02-01 09:00:00" github_row)
    ∧ d !! "last_accessed" = Some (Text "2024-02-01 09:00:00")
    ∧ d !! "password" = Some (Text "s3cret")
    ∧ d !! "password_encrypted" = None
    ∧ ∀ key, key ≠ "last_accessed" → key ≠ "password" → key ≠ "password_encrypted" →
             d !! key = dict_all github_row !! key.
Proof.
  apply (@get_by_id_returns_touched_row (Fernet vault_key) 1 "2024-02-01 09:00:00"
           vault_one github_row "s3cret").
  - vm_compute. reflexivity.
  - vm_compute. reflexivity.
Defined.

(** C7, as the specification states it, fails: the record that
    [get_credential_by_id] returns is read after the update of
    last_accessed, so its 'last_accessed' is the new time and not the value
    the row held before the call. *)
Lemma returned_record_is_after_touch :
  ¬ (∀ c i now r d,
       select_by_id i (view c) = Some r →
       (@get_credential_by_id (Fernet vault_key) i now c).1 = Some d →
       d !! "last_accessed" = dict_all r !! "last_accessed").
Proof.
  intros Hclaim.
  pose (d := delete "password_encrypted"
               (<["password" := Text "s3cret"]>
                  (dict_all (set_last_accessed "2024-02-01 09:00:00" github_row)))).
  specialize (Hclaim vault_one 1 "2024-02-01 09:00:00" github_row d).
  assert (select_by_id 1 (view vault_one) = Some github_row) as Hsel
    by (vm_compute; reflexivity).
  assert ((@get_credential_by_id (Fernet vault_key) 1 "2024-02-01 09:00:00" vault_one).1
          = Some d) as Hget by (vm_compute; reflexivity).
  specialize (Hclaim Hsel Hget). vm_compute in Hclaim. discriminate.
Qed.

Lemma decrypt_failure_is_masked_witness :
  @get_credential_by_id (Fernet vault_key) 1 "2024-02-01 09:00:00" (_connect damaged_file)
    = (None, settled (_connect damaged_file)
               (with_updated (set_last_accessed "2024-02-01 09:00:00") 1
                  (view (_connect damaged_file))))
  ∧ @get_all_credentials (Fernet vault_key) true (_connect damaged_file)
    = ([], _connect damaged_file).
Proof.
  apply (@decrypt_failure_is_masked (Fernet vault_key) 1 "2024-02-01 09:00:00"
           (_connect damaged_file)
           (Cred.mk 1 "GitHub" "alice" None "not-a-token" "Weak" None "General"
              "2024-01-01 10:00:00" "2024-01-01 10:00:00" None)).
  - vm_compute. reflexivity.
  - vm_compute. reflexivity.
Defined.

(** C9, as the specification states it, fails: on a vault whose row 1 holds
    a cell that is no token, [get_credential_by_id(1)] returns [None], the
    very result of the id 2 that has no row, and
    [get_all_credentials(True)] returns the empty list, the very result of
    an empty vault. *)
Lemma decryption_failure_not_distinct :
  let c := _connect damaged_file in
  let now := "2024-02-01 09:00:00" in
  select_by_id 1 (view c) ≠ None
  ∧ (@get_credential_by_id (Fernet vault_key) 1 now c).1 = None
  ∧ (@get_credential_by_id (Fernet vault_key) 2 now c).1 = None
  ∧ (@get_all_credentials (Fernet vault_key) true c).1 = []
  ∧ (@get_all_credentials (Fernet vault_key) true new_vault).1 = [].
Proof. vm_compute. split_and!; done. Qed.

(** ** Deleting *)

Lemma delete_credential_removes (i : Z) (c : Connection) (r : Cred.row) :
  r ∈ credentials (view (delete_credential i c).2) → Cred.id r ≠ i.
Proof.
  destruct (decide (binds i (view c))) as [Hbinds|Hbinds].
  - rewrite delete_credential_eq by done. cbv zeta.
    destruct (0 <? _)%nat; simpl; intros Hr; by apply list_elem_of_filter in Hr as [? _].
  - rewrite delete_credential_overflow by done. simpl. intros Hr Hid.
    apply (not_binds_absent _ _ Hbinds). unfold id_exists. apply Exists_exists. eauto.
Qed.

Lemma delete_keeps_history_without_enforcement (i : Z) (c : Connection) :
  foreign_keys c = false →
  password_history (view (delete_credential i c).2) = password_history (view c)
  ∧ ∀ r, r ∈ credentials (view (delete_credential i c).2) → Cred.id r ≠ i.
Proof.
  intros Hfk. split; [|apply delete_credential_removes].
  destruct (decide (binds i (view c))) as [Hbinds|Hbinds];
    [|by rewrite delete_credential_overflow].
  rewrite delete_credential_eq by done. cbv zeta. rewrite Hfk.
  by destruct (0 <? _)%nat.
Qed.

Lemma delete_cascades_under_enforcement (i : Z) (c : Connection) :
  foreign_keys c = true → binds i (view c) →
  ∀ h, h ∈ password_history (view (delete_credential i c).2) → Hist.credential_id h ≠ i.
Proof.
  intros Hfk Hbinds h. rewrite delete_credential_eq by done. cbv zeta. rewrite Hfk.
  destruct (0 <? _)%nat; simpl; intros Hh; by apply list_elem_of_filter in Hh as [? _].
Qed.

Lemma delete_then_get_by_id `{!Cipher} (i : Z) (now : string) (c : Connection) :
  (get_credential_by_id i now (delete_credential i c).2).1 = None.
Proof.
  destruct (decide (binds i (view (delete_credential i c).2))) as [Hbinds|Hbinds];
    [|by rewrite get_credential_by_id_overflow].
  rewrite get_credential_by_id_eq by done. cbv zeta.
  assert (select_by_id i (view (delete_credential i c).2) = None) as ->; [|done].
  apply select_by_id_none. unfold id_exists. rewrite Exists_exists.
  intros (r & Hr & Hid). by apply (delete_credential_removes i c r).
Qed.

(** C2 on the code: [delete_credential(1)] on the vault that holds the one
    credential of id 1 reports success and removes the credentials row, and
    a later [get_credential_by_id(1)] returns [None]; but the
    password_history row whose credential_id is 1 is still there, committed.
    The schema declares ON DELETE CASCADE, and the connection never turns
    foreign key enforcement on. *)
Theorem delete_leaves_history_rows :
  let c' := (delete_credential 1 vault_one).2 in
  foreign_keys vault_one = false
  ∧ (delete_credential 1 vault_one).1 = Result.mk true "Credential deleted" None
  ∧ credentials (committed c') = []
  ∧ pending c' = None
  ∧ password_history (committed c')
    = [Hist.mk 1 1 (ref_encrypt vault_key "iv-1" "s3cret") "2024-01-01 10:00:00"]
  ∧ (@get_credential_by_id (Fernet vault_key) 1 "2024-02-01 09:00:00" c').1 = None.
Proof. vm_compute. split_and!; reflexivity. Qed.

(** ** Updating *)

Lemma update_where_id_absent (f : Cred.row → Cred.row) (i : Z) (rows : list Cred.row) :
  (∀ r, r ∈ rows → Cred.id r ≠ i) → update_where_id f i rows = rows.
Proof.
  intros Habsent. unfold update_where_id.
  induction rows as [|r rows IH]; [done|].
  rewrite fmap_cons, decide_False by (apply Habsent; left).
  rewrite IH; [done|]. intros r' Hr'. apply Habsent. by right.
Qed.

Lemma with_updated_absent (f : Cred.row → Cred.row) (i : Z) (db : Database) :
  ¬ id_exists i db → with_updated f i db = db.
Proof.
  intros Habsent. unfold with_updated. rewrite update_where_id_absent; [by destruct db|].
  intros r Hr Hid. apply Habsent. unfold id_exists. apply Exists_exists. eauto.
Qed.

Lemma unique_violation_absent (i : Z) (rows : list Cred.row) :
  (∀ r, r ∈ rows → Cred.id r ≠ i) → ¬ unique_violation i rows.
Proof.
  intros Habsent. unfold unique_violation. rewrite Exists_exists.
  intros (r & Hr & Hid & _). by apply (Habsent r).
Qed.

Section update.
Context `{!Cipher}.

(** With no recognised keyword, nothing is run and the answer is
    "No updates provided". *)
Lemma update_without_fields i iv now c :
  update_credential i (Kwargs.mk None None None None None None) iv now c
  = (Result.mk false "No updates provided" None, c).
Proof. reflexivity. Qed.

(** With a password and an id within 64 bits that has no row, on a
    connection that does not enforce foreign keys: the history row is
    inserted, the UPDATE matches nothing, the transaction is committed and
    the answer is "Credential updated". *)
Lemma update_unknown_id_with_password i kw pw iv now c :
  in_int64 i → ¬ id_exists i (view c) → foreign_keys c = false →
  Kwargs.password kw = Some pw →
  update_credential i kw iv now c
  = (Result.mk true "Credential updated" None,
     settled c (with_history
                  (Hist.mk (next_history_id (view c)) i (_encrypt_password iv pw) now)
                  (view c))).
Proof.
  intros Hrange Habsent Hfk Hpw. unfold update_credential. run.
  rewrite Hpw. unfold insert_password_history.
  rewrite decide_True by (by left). rewrite Hfk. cbn [andb app].
  unfold update_credentials. rewrite decide_True by (by left).
  rewrite view_working.
  set (db := with_history _ (view c)).
  assert (¬ id_exists i db) as Habsent' by done.
  rewrite with_updated_absent by done.
  rewrite (bool_decide_eq_false_2 (unique_violation i (credentials db))), andb_false_r.
  - done.
  - apply unique_violation_absent. intros r Hr Hid. apply Habsent'.
    unfold id_exists. apply Exists_exists. eauto.
Qed.

(** Without a password, with some other field, and an id within 64 bits
    that has no row: the UPDATE matches nothing, and the answer is still
    "Credential updated". *)
Lemma update_unknown_id_without_password i kw iv now c :
  in_int64 i → ¬ id_exists i (view c) →
  Kwargs.password kw = None → plain_fields kw ≠ [] →
  update_credential i kw iv now c
  = (Result.mk true "Credential updated" None, settled c (view c)).
Proof.
  intros Hrange Habsent Hpw Hplain. unfold update_credential. run.
  rewrite Hpw. cbn [app].
  destruct (plain_fields kw) as [|a fields]; [done|]. cbn [app].
  unfold update_credentials. rewrite decide_True by (by left).
  rewrite with_updated_absent by done.
  rewrite (bool_decide_eq_false_2 (unique_violation i (credentials (view c)))), andb_false_r.
  - done.
  - apply unique_violation_absent. intros r Hr Hid. apply Habsent.
    unfold id_exists. apply Exists_exists. eauto.
Qed.
End update.

(** C6 on the code: on a new vault, where no credential exists,
    [update_credential(7, password="hunter2")] answers
    success "Credential updated" and not a not-found failure, and it
    commits a password_history row for credential 7. *)
Theorem update_unknown_id_reports_success :
  let kwargs := Kwargs.mk (Some "hunter2") None None None None None in
  let out := @update_credential (Fernet vault_key) 7 kwargs "iv-7" "2024-03-01 12:00:00"
               new_vault in
  ¬ id_exists 7 (view new_vault)
  ∧ out.1 = Result.mk true "Credential updated" None
  ∧ credentials (committed out.2) = []
  ∧ pending out.2 = None
  ∧ password_history (committed out.2)
    = [Hist.mk 1 7 (ref_encrypt vault_key "iv-7" "hunter2") "2024-03-01 12:00:00"].
Proof.
  intros kwargs out. split.
  - unfold id_exists. rewrite Exists_exists. intros (r & Hr & _).
    by apply elem_of_nil in Hr.
  - vm_compute. split_and!; reflexivity.
Qed.

(** ** Searching *)

Lemma compare_percent (pattern s : string) :
  pattern_compare (String "%" pattern) s
  = pattern_compare pattern s
    || match s with
       | EmptyString => false
       | String _ s' => pattern_compare (String "%" pattern) s'
       end.
Proof. by destruct s. Qed.

Lemma compare_percent_only (s : string) : pattern_compare "%" s = true.
Proof.
  induction s as [|d s IH]; [done|].
  rewrite compare_percent. rewrite IH. apply orb_true_r.
Qed.

Lemma compare_literal_prefix (term s : string) :
  any wildcard term = false →
  pattern_compare (term +:+ "%") s = prefix_nocase term s.
Proof.
  revert s. induction term as [|c term IH]; intros s Hplain.
  - apply compare_percent_only.
  - simpl in Hplain. apply orb_false_iff in Hplain as [Hc Hterm].
    unfold wildcard in Hc. apply orb_false_iff in Hc as [Hpercent Hunder].
    change (String c term +:+ "%") with (String c (term +:+ "%")).
    simpl. rewrite Hpercent, Hunder. destruct s as [|d s]; [done|].
    simpl. by rewrite IH.
Qed.

Lemma compare_substring (term s : string) :
  any wildcard term = false →
  pattern_compare ("%" +:+ term +:+ "%") s = substring_nocase term s.
Proof.
  intros Hplain.
  change ("%" +:+ term +:+ "%") with (String "%" (term +:+ "%")).
  induction s as [|d s IH].
  - rewrite compare_percent, compare_literal_prefix by done. done.
  - rewrite compare_percent, compare_literal_prefix, IH by done. done.
Qed.


(** Cutting a concatenation at its first NUL. *)
Lemma c_str_app (s t : string) :
  c_str (s +:+ t) = c_str s +:+ (if any is_nul s then "" else c_str t).
Proof.
  induction s as [|c s IH]; [done|].
  change (String c s +:+ t) with (String c (s +:+ t)). cbn [c_str any].
  unfold is_nul at 1. destruct (Ascii.eqb c zero); [done|].
  cbn [orb]. rewrite IH. done.
Qed.

Lemma c_str_plain (s : string) : any is_nul s = false → c_str s = s.
Proof.
  induction s as [|c s IH]; [done|]. cbn [c_str any]. unfold is_nul at 1.
  destruct (Ascii.eqb c zero); [done|]. cbn [orb]. intros Hs. by rewrite IH.
Qed.

Lemma c_str_pattern (term : string) :
  c_str ("%" +:+ term +:+ "%")
  = "%" +:+ c_str term +:+ (if any is_nul term then "" else "%").
Proof.
  change ("%" +:+ term +:+ "%") with (String "%" (term +:+ "%")).
  cbn [c_str]. change (Ascii.eqb "%" zero) with false. cbv iota.
  by rewrite c_str_app.
Qed.

Lemma like_substring (term s : string) :
  any wildcard term = false → any is_nul term = false →
  like ("%" +:+ term +:+ "%") s = substring_nocase term (c_str s).
Proof.
  intros Hplain Hnul. unfold like.
  rewrite c_str_pattern, Hnul, c_str_plain by done.
  by apply compare_substring.
Qed.


#[global] Instance by_service_name_total : Total by_service_name.
Proof. intros r1 r2. unfold by_service_name. apply (total String.le). Qed.

#[global] Instance by_service_name_username_total : Total by_service_name_username.
Proof.
  intros r1 r2. unfold by_service_name_username, by_service_name.
  destruct (decide (Cred.service_name r1 = Cred.service_name r2)) as [Heq|Hne].
  - destruct (total String.le (Cred.username r1) (Cred.username r2)); [left|right];
      right; by split.
  - destruct (total String.le (Cred.service_name r1) (Cred.service_name r2)); [left|right];
      left; by split.
Qed.

(** Rows ordered by service_name and then username are ordered by
    service_name. *)
Lemma Sorted_by_service_name (rows : list Cred.row) :
  Sorted by_service_name_username rows → Sorted by_service_name rows.
Proof.
  assert (∀ r1 r2, by_service_name_username r1 r2 → by_service_name r1 r2) as Hweak.
  { intros r1 r2 [[_ Hle]|[Heq _]]; [done|].
    unfold by_service_name. by rewrite Heq. }
  induction 1 as [|r rows Hrows IH Hhd]; constructor; [done|].
  destruct Hhd; constructor. by apply Hweak.
Qed.




(** A NUL in the term ends the pattern: the term U+0000 "zzz" gives the
    pattern "%", which finds every credential. *)
Example search_nul_term :
  (λ d, d !! "service_name") <$> (search_credentials (String zero "zzz") vault_three).1
  = [Some (Text "GitHub"); Some (Text "Gitlab"); Some (Text "Twitter")].
Proof. vm_compute. reflexivity. Qed.

(** The example of the specification: "git" finds GitHub and Gitlab, in
    that order, and not Twitter. *)
Example search_git :
  (λ d, d !! "service_name") <$> (search_credentials "git" vault_three).1
  = [Some (Text "GitHub"); Some (Text "Gitlab")].
Proof. vm_compute. reflexivity. Qed.


(** ** Sessions *)

Section sessions.
Context `{!Cipher}.

(** No call turns foreign key enforcement on. *)
Lemma step_foreign_keys now k c : foreign_keys (step now k c) = foreign_keys c.
Proof.
  destruct k as [sn un pw em nt cat iv|d|i|i kw iv|i|t|]; simpl.
  - destruct (decide (key_exists sn un (view c))).
    + by rewrite add_credential_duplicate.
    + by rewrite add_credential_fresh.
  - by rewrite get_all_credentials_state.
  - destruct (decide (binds i (view c))) as [Hbinds|Hbinds];
      [|by rewrite get_credential_by_id_overflow].
    rewrite get_credential_by_id_eq by done. cbv zeta.
    destruct (select_by_id i (view c)) as [r|]; [|done].
    by destruct (decrypt (Cred.password_encrypted r)).
  - unfold update_credential. run.
    destruct (Kwargs.password kw) as [pw|].
    + unfold insert_password_history.
      destruct (decide (binds i (view c))) as [Hbinds|Hbinds]; [|done].
      destruct (foreign_keys c && negb (bool_decide (id_exists i (view c)))); [done|].
      cbn [app]. unfold update_credentials.
      destruct (decide (binds i _)) as [Hbinds'|Hbinds']; [|done].
      by destruct (existsb touches_key _ && bool_decide _).
    + cbn [app]. destruct (plain_fields kw); [done|].
      unfold update_credentials.
      destruct (decide (binds i _)) as [Hbinds'|Hbinds']; [|done].
      by destruct (existsb touches_key _ && bool_decide _).
  - destruct (decide (binds i (view c))) as [Hbinds|Hbinds];
      [|by rewrite delete_credential_overflow].
    rewrite delete_credential_eq by done. cbv zeta. by destruct (0 <? _)%nat.
  - done.
  - done.
Qed.

Lemma session_foreign_keys calls file :
  foreign_keys (session calls (_connect file)) = false.
Proof.
  assert (∀ c, foreign_keys (session calls c) = foreign_keys c) as Hkeep; [|by rewrite Hkeep].
  induction calls as [|[now k] calls IH]; intros c; [done|].
  simpl. by rewrite IH, step_foreign_keys.
Qed.

(** In any session on any vault file, a deletion leaves every
    password_history row in place. *)
Lemma session_delete_keeps_history calls file i :
  let c := session calls (_connect file) in
  password_history (view (delete_credential i c).2) = password_history (view c).
Proof.
  intros c. apply delete_keeps_history_without_enforcement, session_foreign_keys.
Qed.

(** In a session on a new vault, every [password_encrypted] cell is the
    token that one of the calls made from its password. *)
Lemma session_ciphertexts calls v :
  v ∈ stored (session calls new_vault) →
  ∃ now k, (now, k) ∈ calls ∧ fresh_ciphertext k v.
Proof.
  assert (∀ c, v ∈ stored (session calls c) →
               v ∈ stored c ∨ ∃ now k, (now, k) ∈ calls ∧ fresh_ciphertext k v) as Hgen.
  { induction calls as [|[now k] calls IH]; intros c Hv; [by left|].
    simpl in Hv. destruct (IH _ Hv) as [Hstep|(now' & k' & Hin & Hfresh)].
    - destruct (step_accounted now k c) as [Hcom Hview].
      unfold stored in Hstep. apply elem_of_app in Hstep as [Hstep|Hstep].
      + destruct (Hcom v Hstep) as [?|?]; [by left|].
        right. exists now, k. split; [left|done].
      + destruct (Hview v Hstep) as [?|?]; [by left|].
        right. exists now, k. split; [left|done].
    - right. exists now', k'. split; [by right|done]. }
  intros Hv. destruct (Hgen _ Hv) as [Hnew|?]; [|done].
  vm_compute in Hnew. by apply elem_of_nil in Hnew.
Qed.

(** An update with a password whose UPDATE statement goes through:
    one password_history row is added, the rows of the id take the new
    token, the new strength, the other supplied fields and the current
    time as updated_at, and the transaction is committed. *)
Lemma update_credential_applied i kw pw iv now c :
  Kwargs.password kw = Some pw → binds i (view c) →
  foreign_keys c = false ∨ id_exists i (view c) →
  let db := with_history
              (Hist.mk (next_history_id (view c)) i (_encrypt_password iv pw) now)
              (view c) in
  let fields := [set_password_encrypted (_encrypt_password iv pw);
                 set_password_strength (_calculate_password_strength pw)]
                ++ plain_fields kw ++ [set_updated_at] in
  let db' := with_updated (λ r, foldl (assign now) r fields) i db in
  ¬ unique_violation i (credentials db') →
  update_credential i kw iv now c
  = (Result.mk true "Credential updated" None, settled c db').
Proof.
  intros Hpw Hbinds Hfk db fields db' Hunique. unfold update_credential. run.
  rewrite Hpw. unfold insert_password_history. rewrite decide_True by done.
  assert (foreign_keys c && negb (bool_decide (id_exists i (view c))) = false) as ->.
  { destruct Hfk as [->|Hid]; [done|].
    by rewrite (bool_decide_eq_true_2 _ Hid), andb_false_r. }
  cbn [app]. unfold update_credentials. rewrite decide_True by done.
  rewrite view_working.
  fold db. change (with_updated _ i db) with db'.
  by rewrite (bool_decide_eq_false_2 _ Hunique), andb_false_r.
Qed.
End sessions.

(** An update that supplies a password and a (service_name, username) pair
    taken by another credential fails on the UPDATE statement; the
    password_history row inserted before it stays in the open transaction,
    and the next commit, here the one of a point read, writes it to disk. *)
Example update_collision_leaves_history :
  let kwargs := Kwargs.mk (Some "n3w") (Some "Gitlab") (Some "bob") None None None in
  let out := @update_credential (Fernet vault_key) 1 kwargs "iv-4" "2024-03-01 12:00:00"
               vault_three in
  let later := (@get_credential_by_id (Fernet vault_key) 2 "2024-03-02 12:00:00" out.2).2 in
  out.1 = Result.mk false
            "Update error: UNIQUE constraint failed: credentials.service_name, credentials.username"
            None
  ∧ committed out.2 = committed vault_three
  ∧ length (password_history (view out.2)) = 4%nat
  ∧ length (password_history (committed vault_three)) = 3%nat
  ∧ length (password_history (committed later)) = 4%nat.
Proof. vm_compute. split_and!; reflexivity. Qed.


(** * Further properties of the code *)

(** ** The scorer on longer and on short passwords *)

Lemma any_app (f : ascii → bool) (s t : string) :
  any f (s +:+ t) = any f s || any f t.
Proof.
  induction s as [|c s IH]; [done|].
  change (String c s +:+ t) with (String c (s +:+ t)). simpl.
  by rewrite IH, orb_assoc.
Qed.

Lemma len_app (s t : string) : len (s +:+ t) = (len s + len t)%nat.
Proof.
  unfold len. induction s as [|c s IH]; [done|].
  change (String c s +:+ t) with (String c (s +:+ t)). simpl. by rewrite IH.
Qed.

Lemma point_le (a b : bool) : (a = true → b = true) → (point a ≤ point b)%nat.
Proof. destruct a, b; simpl; intros H; first [lia|by specialize (H eq_refl)]. Qed.

(** Characters added at the end of a password never lower its score, so
    they never take it from "Strong" or into "Weak". *)
Theorem longer_password_scores_no_less (password more : string) :
  (password_score password ≤ password_score (password +:+ more))%nat
  ∧ (_calculate_password_strength password = "Strong" →
     _calculate_password_strength (password +:+ more) = "Strong")
  ∧ (_calculate_password_strength (password +:+ more) = "Weak" →
     _calculate_password_strength password = "Weak").
Proof.
  assert (password_score password ≤ password_score (password +:+ more))%nat as Hle.
  { rewrite !password_score_points, !any_app, len_app.
    repeat apply Nat.add_le_mono; apply point_le.
    - rewrite !Nat.leb_le. lia.
    - rewrite !Nat.leb_le. lia.
    - intros ->. done.
    - intros ->. done.
    - intros ->. done.
    - intros ->. done. }
  split; [done|]. unfold _calculate_password_strength.
  destruct (5 <=? password_score password)%nat eqn:H5,
    (5 <=? password_score (password +:+ more))%nat eqn:H5',
    (3 <=? password_score password)%nat eqn:H3,
    (3 <=? password_score (password +:+ more))%nat eqn:H3';
    try (split; [done|done]);
    rewrite ?Nat.leb_le, ?Nat.leb_gt in *; lia.
Qed.

(** A password of fewer than 12 characters gets at most the four points of
    the character classes, so it is never "Strong". *)
Theorem short_password_never_strong (password : string) :
  (len password < 12)%nat →
  (password_score password ≤ 4)%nat
  ∧ _calculate_password_strength password ≠ "Strong".
Proof.
  intros Hshort.
  assert (password_score password ≤ 4)%nat as Hle.
  { rewrite password_score_points.
    assert ((12 <=? len password)%nat = false) as -> by (apply Nat.leb_gt; lia).
    assert ((16 <=? len password)%nat = false) as -> by (apply Nat.leb_gt; lia).
    destruct (any isupper password), (any islower password), (any isdigit password),
      (any (char_in punctuation) password); simpl; lia. }
  split; [done|]. unfold _calculate_password_strength.
  assert ((5 <=? password_score password)%nat = false) as -> by (apply Nat.leb_gt; lia).
  by destruct (3 <=? password_score password)%nat.
Qed.

Lemma short_password_never_strong_witness :
  (password_score "Aa1!Aa1!Aa1" ≤ 4)%nat
  ∧ _calculate_password_strength "Aa1!Aa1!Aa1" ≠ "Strong".
Proof. apply (short_password_never_strong "Aa1!Aa1!Aa1"). vm_compute. lia. Defined.

(** ** The key file *)

(** Once [_get_or_create_key] has returned a key, every later call returns
    that key, whatever key the generator would draw, and leaves the file as
    it is. *)
Theorem key_is_kept (generated generated' : string) (fs : key_store) (key : string) :
  (_get_or_create_key generated fs).1 = Some key →
  _get_or_create_key generated' (_get_or_create_key generated fs).2
  = (Some key, (_get_or_create_key generated fs).2).
Proof. destruct fs; simpl; intros Hkey; by simplify_eq. Qed.

Lemma key_is_kept_witness :
  _get_or_create_key "second" (_get_or_create_key "first" no_key_file).2
  = (Some "first", (_get_or_create_key "first" no_key_file).2).
Proof. apply (key_is_kept "first" "second" no_key_file "first"). reflexivity. Defined.

(** ** Unknown and known ids *)

Lemma id_exists_filter (i : Z) (db : Database) :
  id_exists i db ↔ (0 < length (filter (λ r, Cred.id r = i) (credentials db)))%nat.
Proof.
  unfold id_exists. rewrite Exists_exists. split.
  - intros (r & Hr & Hid).
    assert (r ∈ filter (λ r, Cred.id r = i) (credentials db)) as Hin
      by (by apply list_elem_of_filter).
    destruct (filter _ _); [by apply elem_of_nil in Hin|simpl; lia].
  - destruct (filter _ _) as [|r rows] eqn:Hf; simpl; [lia|]. intros _.
    assert (r ∈ filter (λ r, Cred.id r = i) (credentials db)) as Hin by (rewrite Hf; left).
    apply list_elem_of_filter in Hin as [? ?]. eauto.
Qed.

Lemma filter_absent (i : Z) (rows : list Cred.row) :
  (∀ r, r ∈ rows → Cred.id r ≠ i) → filter (λ r, Cred.id r ≠ i) rows = rows.
Proof.
  intros Habsent. induction rows as [|r rows IH]; [done|].
  rewrite filter_cons, decide_True by (apply Habsent; left).
  rewrite IH; [done|]. intros r' Hr'. apply Habsent. by right.
Qed.

Lemma select_by_id_without (cascade : bool) (i j : Z) (db : Database) :
  i ≠ j → select_by_id j (without_credential cascade i db) = select_by_id j db.
Proof.
  intros Hij. unfold select_by_id, without_credential. simpl.
  induction (credentials db) as [|r rows IH]; [done|].
  rewrite !filter_cons. destruct (decide (Cred.id r = j)) as [Hj|Hj].
  - rewrite decide_True by congruence. by rewrite filter_cons, decide_True.
  - destruct (decide (Cred.id r ≠ i)); [|done]. by rewrite filter_cons, decide_False.
Qed.

(** A point read of an id that has no row returns [None] and changes no
    row. For an id within 64 bits it still commits the transaction that was
    open; for an id beyond, the UPDATE raises on its parameter and nothing
    is committed. *)
Theorem get_by_id_unknown `{!Cipher} (i : Z) (now : string) (c : Connection) :
  ¬ id_exists i (view c) →
  get_credential_by_id i now c
  = (None, if decide (in_int64 i) then settled c (view c) else working c (view c)).
Proof.
  intros Habsent. destruct (decide (in_int64 i)) as [Hrange|Hrange].
  - rewrite get_credential_by_id_eq by (by left). cbv zeta.
    rewrite with_updated_absent by done.
    by apply select_by_id_none in Habsent as ->.
  - apply get_credential_by_id_overflow. by intros [?|?].
Qed.

Lemma get_by_id_unknown_witness :
  @get_credential_by_id (Fernet vault_key) 5 "2024-02-01 09:00:00" vault_one
  = (None, if decide (in_int64 5) then settled vault_one (view vault_one)
           else working vault_one (view vault_one)).
Proof.
  apply (@get_by_id_unknown (Fernet vault_key)).
  apply (bool_decide_eq_false_1 (id_exists 5 (view vault_one))). vm_compute. reflexivity.
Defined.

Example get_by_id_beyond_int64 :
  @get_credential_by_id (Fernet vault_key) (2 ^ 63) "2024-02-01 09:00:00" vault_one
  = (None, working vault_one (view vault_one)).
Proof. vm_compute. reflexivity. Qed.

(** Deleting an id that has no row commits nothing and leaves both tables
    as they are; the answer is "Credential not found" for an id within 64
    bits, and the "Delete error" of the parameter that does not bind for an
    id beyond. *)
Theorem delete_unknown_id (i : Z) (c : Connection) :
  ¬ id_exists i (view c) → foreign_keys c = false →
  delete_credential i c
  = (Result.mk false
       (if decide (in_int64 i) then "Credential not found"
        else "Delete error: Python int too large to convert to SQLite INTEGER")
       None,
     working c (view c)).
Proof.
  intros Habsent Hfk. destruct (decide (in_int64 i)) as [Hrange|Hrange].
  - rewrite delete_credential_eq by (by left). cbv zeta.
    assert ((0 <? length (filter (λ r, Cred.id r = i) (credentials (view c))))%nat = false)
      as ->.
    { apply Nat.ltb_ge. rewrite id_exists_filter in Habsent. lia. }
    f_equal. f_equal. unfold without_credential. rewrite Hfk, filter_absent.
    + by destruct (view c).
    + intros r Hr Hid. apply Habsent. unfold id_exists. apply Exists_exists. eauto.
  - apply delete_credential_overflow. by intros [?|?].
Qed.

Lemma delete_unknown_id_witness :
  delete_credential 5 vault_one
  = (Result.mk false
       (if decide (in_int64 5) then "Credential not found"
        else "Delete error: Python int too large to convert to SQLite INTEGER")
       None,
     working vault_one (view vault_one)).
Proof.
  apply (delete_unknown_id 5 vault_one); [|reflexivity].
  apply (bool_decide_eq_false_1 (id_exists 5 (view vault_one))). vm_compute. reflexivity.
Defined.

Example delete_beyond_int64 :
  delete_credential (2 ^ 63) vault_one
  = (Result.mk false "Delete error: Python int too large to convert to SQLite INTEGER" None,
     working vault_one (view vault_one)).
Proof. vm_compute. reflexivity. Qed.

(** Deleting an id that has a row returns "Credential deleted" and
    commits; afterwards the id has no row, and every other id reads the
    row it read before. *)
Theorem delete_known_id (i : Z) (c : Connection) :
  id_exists i (view c) →
  ∃ c', delete_credential i c = (Result.mk true "Credential deleted" None, c')
        ∧ pending c' = None
        ∧ select_by_id i (view c') = None
        ∧ ∀ j, j ≠ i → select_by_id j (view c') = select_by_id j (view c).
Proof.
  intros Hid. rewrite delete_credential_eq by (by apply id_exists_binds). cbv zeta.
  apply id_exists_filter in Hid. apply Nat.ltb_lt in Hid. rewrite Hid.
  eexists. split; [reflexivity|]. rewrite view_settled. split_and!.
  - done.
  - apply select_by_id_none. unfold id_exists. rewrite Exists_exists.
    intros (r & Hr & Hr'). simpl in Hr. by apply list_elem_of_filter in Hr as [? _].
  - intros j Hj. by apply select_by_id_without.
Qed.

Lemma delete_known_id_witness :
  ∃ c', delete_credential 2 vault_three = (Result.mk true "Credential deleted" None, c')
        ∧ pending c' = None
        ∧ select_by_id 2 (view c') = None
        ∧ ∀ j, j ≠ 2 → select_by_id j (view c') = select_by_id j (view vault_three).
Proof.
  apply (delete_known_id 2 vault_three).
  apply (bool_decide_eq_true_1 (id_exists 2 (view vault_three))). vm_compute. reflexivity.
Defined.

(** ** What an add writes, and the ids it gives *)

Lemma next_rowid_above_seq (seq : Z) (ids : list Z) : seq < next_rowid seq ids.
Proof. unfold next_rowid. induction ids as [|j ids IH]; simpl; lia. Qed.

Section adding.
Context `{!Cipher}.

(** A successful add commits exactly one new credentials row and one new
    password_history row: both hold the same token of the password, the
    history row refers to the new id, the credentials row holds the
    arguments, the strength of the password and the current time, and the
    new id is above the id of every row that was there. *)
Theorem add_writes_one_row_each sn un P em nt cat iv now c :
  ¬ key_exists sn un (view c) →
  ∃ i r h c',
    add_credential sn un P em nt cat iv now c
      = (Result.mk true ("Credential saved: " +:+ sn) (Some i), c')
    ∧ pending c' = None
    ∧ credentials (view c') = credentials (view c) ++ [r]
    ∧ password_history (view c') = password_history (view c) ++ [h]
    ∧ Hist.credential_id h = i
    ∧ Hist.password_encrypted h = _encrypt_password iv P
    ∧ r = Cred.mk i sn un em (_encrypt_password iv P) (_calculate_password_strength P)
            nt cat now now None
    ∧ ∀ r', r' ∈ credentials (view c) → Cred.id r' < i.
Proof.
  intros Hnew. rewrite add_credential_fresh by done. cbv zeta.
  eexists _, _, _, _. split; [reflexivity|]. rewrite view_settled.
  split_and!; try reflexivity.
  intros r' Hr'. simpl. apply next_rowid_fresh. apply list_elem_of_fmap. eauto.
Qed.

Lemma add_credential_id sn un P em nt cat iv now c i :
  Result.id (add_credential sn un P em nt cat iv now c).1 = Some i →
  seq_credentials (view c) < i
  ∧ seq_credentials (view (add_credential sn un P em nt cat iv now c).2) = i.
Proof.
  destruct (decide (key_exists sn un (view c))) as [Hdup|Hnew].
  - by rewrite add_credential_duplicate.
  - rewrite add_credential_fresh by done. cbv zeta. simpl. intros [= <-].
    split; [apply next_rowid_above_seq|done].
Qed.

Lemma step_sequence_monotone now k c :
  seq_credentials (view c) ≤ seq_credentials (view (step now k c)).
Proof.
  destruct k as [sn un pw em nt cat iv|d|i|i kw iv|i|t|]; simpl.
  - destruct (decide (key_exists sn un (view c))) as [Hdup|Hnew].
    + by rewrite add_credential_duplicate.
    + rewrite add_credential_fresh by done. cbv zeta. simpl.
      pose proof (next_rowid_above_seq (seq_credentials (view c))
                    (Cred.id <$> credentials (view c))).
      unfold next_credential_id. lia.
  - by rewrite get_all_credentials_state.
  - destruct (decide (binds i (view c))) as [Hbinds|Hbinds];
      [|by rewrite get_credential_by_id_overflow].
    rewrite get_credential_by_id_eq by done. cbv zeta.
    destruct (select_by_id i (view c)) as [r|]; [|done].
    by destruct (decrypt (Cred.password_encrypted r)).
  - unfold update_credential. run.
    destruct (Kwargs.password kw) as [pw|].
    + unfold insert_password_history.
      destruct (decide (binds i (view c))) as [Hbinds|Hbinds]; [|done].
      destruct (foreign_keys c && negb (bool_decide (id_exists i (view c)))); [done|].
      cbn [app]. unfold update_credentials.
      destruct (decide (binds i _)) as [Hbinds'|Hbinds']; [|done].
      by destruct (existsb touches_key _ && bool_decide _).
    + cbn [app]. destruct (plain_fields kw); [done|].
      unfold update_credentials.
      destruct (decide (binds i _)) as [Hbinds'|Hbinds']; [|done].
      by destruct (existsb touches_key _ && bool_decide _).
  - destruct (decide (binds i (view c))) as [Hbinds|Hbinds];
      [|by rewrite delete_credential_overflow].
    rewrite delete_credential_eq by done. cbv zeta. by destruct (0 <? _)%nat.
  - done.
  - done.
Qed.

Lemma session_sequence_monotone calls c :
  seq_credentials (view c) ≤ seq_credentials (view (session calls c)).
Proof.
  revert c. induction calls as [|[now k] calls IH]; intros c; [done|].
  simpl. etrans; [apply (step_sequence_monotone now k)|apply IH].
Qed.

(** Ids are not given twice: an id returned by [add_credential] is below
    the id returned by any later [add_credential], whatever calls, deletions
    included, are made in between. *)
Theorem ids_never_reused sn un P em nt cat iv now c i
    calls sn' un' P' em' nt' cat' iv' now' j :
  Result.id (add_credential sn un P em nt cat iv now c).1 = Some i →
  Result.id (add_credential sn' un' P' em' nt' cat' iv' now'
               (session calls (add_credential sn un P em nt cat iv now c).2)).1 = Some j →
  i < j.
Proof.
  intros Hi Hj.
  apply add_credential_id in Hi as [_ Hi]. apply add_credential_id in Hj as [Hj _].
  pose proof (session_sequence_monotone calls
                (add_credential sn un P em nt cat iv now c).2). lia.
Qed.
End adding.

Lemma add_writes_one_row_each_witness :
  ∃ i r h c',
    @add_credential (Fernet vault_key) "Gitlab" "bob" "correct horse" None None "General"
       "iv-2" "2024-01-02 10:00:00" vault_one
      = (Result.mk true ("Credential saved: " +:+ "Gitlab") (Some i), c')
    ∧ pending c' = None
    ∧ credentials (view c') = credentials (view vault_one) ++ [r]
    ∧ password_history (view c') = password_history (view vault_one) ++ [h]
    ∧ Hist.credential_id h = i
    ∧ Hist.password_encrypted h = @_encrypt_password (Fernet vault_key) "iv-2" "correct horse"
    ∧ r = Cred.mk i "Gitlab" "bob" None
            (@_encrypt_password (Fernet vault_key) "iv-2" "correct horse")
            (_calculate_password_strength "correct horse") None "General"
            "2024-01-02 10:00:00" "2024-01-02 10:00:00" None
    ∧ ∀ r', r' ∈ credentials (view vault_one) → Cred.id r' < i.
Proof.
  apply (@add_writes_one_row_each (Fernet vault_key)).
  apply (bool_decide_eq_false_1 (key_exists "Gitlab" "bob" (view vault_one))).
  vm_compute. reflexivity.
Defined.

Lemma ids_never_reused_witness :
  let first := @add_credential (Fernet vault_key) "GitHub" "alice" "s3cret" None None
                 "General" "iv-1" "2024-01-01 10:00:00" new_vault in
  let again := @add_credential (Fernet vault_key) "GitHub" "alice" "s3cret" None None
                 "General" "iv-5" "2024-01-01 12:00:00"
                 (@session (Fernet vault_key) [("2024-01-01 11:00:00", Delete 1)] first.2) in
  Result.id first.1 = Some 1 ∧ Result.id again.1 = Some 2 ∧ 1 < 2.
Proof.
  intros first again.
  assert (Result.id first.1 = Some 1) as H1 by (vm_compute; reflexivity).
  assert (Result.id again.1 = Some 2) as H2 by (vm_compute; reflexivity).
  split_and!; [done|done|].
  exact (@ids_never_reused (Fernet vault_key) "GitHub" "alice" "s3cret" None None "General"
           "iv-1" "2024-01-01 10:00:00" new_vault 1
           [("2024-01-01 11:00:00", Delete 1)]
           "GitHub" "alice" "s3cret" None None "General" "iv-5" "2024-01-01 12:00:00" 2
           H1 H2).
Defined.

(** ** Updating a credential that exists *)

Lemma assign_keeps_id (now : string) (fields : list assignment) (r : Cred.row) :
  Cred.id (foldl (assign now) r fields) = Cred.id r.
Proof.
  revert r. induction fields as [|a fields IH]; intros r; [done|].
  simpl. rewrite IH. by destruct r, a.
Qed.

Lemma select_by_id_updated (f : Cred.row → Cred.row) (i j : Z) (db : Database) :
  (∀ r, Cred.id (f r) = Cred.id r) →
  select_by_id j (with_updated f i db)
  = (if decide (j = i) then f <$> select_by_id j db else select_by_id j db).
Proof.
  intros Hid. unfold select_by_id, with_updated, update_where_id. simpl.
  induction (credentials db) as [|r rows IH]; [by destruct (decide (j = i))|].
  rewrite fmap_cons, !filter_cons.
  destruct (decide (Cred.id r = i)) as [Hi|Hi].
  - rewrite Hid. destruct (decide (Cred.id r = j)) as [Hj|Hj].
    + rewrite decide_True by congruence. done.
    + apply IH.
  - destruct (decide (Cred.id r = j)) as [Hj|Hj]; [|apply IH].
    by rewrite decide_False by congruence.
Qed.

Section updating.
Context `{!Cipher}.

Lemma update_credential_success i kw iv now c :
  Result.success (update_credential i kw iv now c).1 = true →
  update_credential i kw iv now c
  = (Result.mk true "Credential updated" None,
     settled c (with_updated (λ r, foldl (assign now) r (update_fields_of kw iv)) i
                  (history_step i kw iv now (view c)))).
Proof.
  unfold update_credential, update_fields_of, history_step. run.
  destruct (Kwargs.password kw) as [pw|].
  - unfold insert_password_history.
    destruct (decide (binds i (view c))) as [Hbinds|Hbinds]; [|done].
    destruct (foreign_keys c && negb (bool_decide (id_exists i (view c)))); [done|].
    cbn [app]. unfold update_credentials.
    destruct (decide (binds i _)) as [Hbinds'|Hbinds']; [|done].
    destruct (existsb touches_key _ && bool_decide _); [done|]. done.
  - cbn [app]. destruct (plain_fields kw) as [|a fields]; [done|].
    unfold update_credentials.
    destruct (decide (binds i _)) as [Hbinds'|Hbinds']; [|done].
    destruct (existsb touches_key _ && bool_decide _); [done|]. done.
Qed.

Lemma update_credential_failure i kw iv now c :
  Result.success (update_credential i kw iv now c).1 = false →
  committed (update_credential i kw iv now c).2 = committed c.
Proof.
  unfold update_credential. run.
  destruct (Kwargs.password kw) as [pw|].
  - unfold insert_password_history.
    destruct (decide (binds i (view c))) as [Hbinds|Hbinds]; [|done].
    destruct (foreign_keys c && negb (bool_decide (id_exists i (view c)))); [done|].
    cbn [app]. unfold update_credentials.
    destruct (decide (binds i _)) as [Hbinds'|Hbinds']; [|done].
    destruct (existsb touches_key _ && bool_decide _); [done|]. done.
  - cbn [app]. destruct (plain_fields kw) as [|a fields]; [done|].
    unfold update_credentials.
    destruct (decide (binds i _)) as [Hbinds'|Hbinds']; [|done].
    destruct (existsb touches_key _ && bool_decide _); [done|]. done.
Qed.

(** An update that returns success changes, in the row of its id, the
    columns named by its keyword arguments and no other: a password gives
    its token and its strength, updated_at takes the current time, and id,
    created_at and last_accessed stay. Rows of other ids read as before,
    and the change is committed. *)
Theorem update_changes_supplied_fields i kw iv now c r :
  select_by_id i (view c) = Some r →
  Result.success (update_credential i kw iv now c).1 = true →
  let c' := (update_credential i kw iv now c).2 in
  pending c' = None
  ∧ select_by_id i (view c')
    = Some (Cred.mk (Cred.id r)
              (default (Cred.service_name r) (Kwargs.service_name kw))
              (default (Cred.username r) (Kwargs.username kw))
              (default (Cred.email r) (Kwargs.email kw))
              (from_option (_encrypt_password iv) (Cred.password_encrypted r)
                 (Kwargs.password kw))
              (from_option _calculate_password_strength (Cred.password_strength r)
                 (Kwargs.password kw))
              (default (Cred.notes r) (Kwargs.notes kw))
              (default (Cred.category r) (Kwargs.category kw))
              (Cred.created_at r) now (Cred.last_accessed r))
  ∧ ∀ j, j ≠ i → select_by_id j (view c') = select_by_id j (view c).
Proof.
  intros Hsel Hok c'. subst c'. rewrite update_credential_success by done.
  cbn [snd]. rewrite view_settled.
  assert (∀ j, select_by_id j (history_step i kw iv now (view c)) = select_by_id j (view c))
    as Hstep by (intros j; unfold history_step; by destruct (Kwargs.password kw)).
  split_and!.
  - done.
  - rewrite select_by_id_updated by (intros; apply assign_keeps_id).
    rewrite decide_True, Hstep, Hsel by done. simpl. f_equal.
    unfold update_fields_of, plain_fields.
    destruct r, kw as [[pw|] [sn|] [un|] [em|] [nt|] [ct|]]; reflexivity.
  - intros j Hj. rewrite select_by_id_updated by (intros; apply assign_keeps_id).
    by rewrite decide_False, Hstep.
Qed.

(** An update of an existing id with a password, and with no new
    service_name or username, succeeds; one password_history row with the
    token of the new password is added, and a point read of the id then
    returns the new password and its strength. *)
Theorem update_password_round_trip i kw P iv now now' c r :
  select_by_id i (view c) = Some r →
  Kwargs.password kw = Some P →
  Kwargs.service_name kw = None → Kwargs.username kw = None →
  ∃ c' d c'',
    update_credential i kw iv now c = (Result.mk true "Credential updated" None, c')
    ∧ password_history (view c')
      = password_history (view c)
        ++ [Hist.mk (next_history_id (view c)) i (_encrypt_password iv P) now]
    ∧ get_credential_by_id i now' c' = (Some d, c'')
    ∧ d !! "password" = Some (Text P)
    ∧ d !! "password_strength" = Some (Text (_calculate_password_strength P)).
Proof.
  intros Hsel Hpw Hsn Hun.
  assert (id_exists i (view c)) as Hid.
  { apply dec_stable. intros Hno. apply select_by_id_none in Hno. congruence. }
  assert (Result.success (update_credential i kw iv now c).1 = true) as Hok.
  { unfold update_credential. run. rewrite Hpw. unfold insert_password_history.
    rewrite decide_True by (by right).
    rewrite (bool_decide_eq_true_2 _ Hid), andb_false_r. cbn [app].
    unfold update_credentials. rewrite decide_True by (by right).
    match goal with |- context [existsb touches_key ?fields] =>
      assert (existsb touches_key fields = false) as ->; [|done] end.
    unfold plain_fields. rewrite Hsn, Hun.
    by destruct (Kwargs.email kw), (Kwargs.notes kw), (Kwargs.category kw). }
  rewrite update_credential_success by done.
  eexists _, _, _. split; [reflexivity|]. rewrite view_settled.
  split; [unfold history_step; by rewrite Hpw|].
  assert (select_by_id i (history_step i kw iv now (view c)) = Some r) as Hsel'
    by (unfold history_step; by rewrite Hpw).
  assert (binds i (with_updated (λ r, foldl (assign now) r (update_fields_of kw iv)) i
                     (history_step i kw iv now (view c)))) as Hbinds.
  { eapply select_by_id_binds.
    rewrite select_by_id_updated by (intros; apply assign_keeps_id).
    by rewrite decide_True, Hsel'. }
  rewrite get_credential_by_id_eq by (by rewrite view_settled).
  rewrite view_settled. cbv zeta.
  rewrite select_by_id_updated by (intros; apply assign_keeps_id).
  rewrite decide_True, Hsel' by done.
  cbn [fmap option_fmap option_map].
  assert (foldl (assign now) r (update_fields_of kw iv)
          = Cred.mk (Cred.id r) (Cred.service_name r) (Cred.username r)
              (default (Cred.email r) (Kwargs.email kw)) (_encrypt_password iv P)
              (_calculate_password_strength P)
              (default (Cred.notes r) (Kwargs.notes kw))
              (default (Cred.category r) (Kwargs.category kw))
              (Cred.created_at r) now (Cred.last_accessed r)) as ->.
  { unfold update_fields_of, plain_fields. rewrite Hpw, Hsn, Hun.
    by destruct r, (Kwargs.email kw), (Kwargs.notes kw), (Kwargs.category kw). }
  cbn [Cred.password_encrypted]. unfold _encrypt_password. rewrite decrypt_encrypt.
  split; [reflexivity|]. split.
  - rewrite lookup_delete_ne by done. apply lookup_insert_eq.
  - reflexivity.
Qed.
End updating.

Lemma update_changes_supplied_fields_witness :
  let kw := Kwargs.mk None None None (Some (Some "alice@example.org")) None (Some "Work") in
  let c' := (@update_credential (Fernet vault_key) 1 kw "iv-6" "2024-03-01 12:00:00"
               vault_one).2 in
  pending c' = None
  ∧ select_by_id 1 (view c')
    = Some (Cred.mk (Cred.id github_row)
              (default (Cred.service_name github_row) (Kwargs.service_name kw))
              (default (Cred.username github_row) (Kwargs.username kw))
              (default (Cred.email github_row) (Kwargs.email kw))
              (from_option (@_encrypt_password (Fernet vault_key) "iv-6")
                 (Cred.password_encrypted github_row) (Kwargs.password kw))
              (from_option _calculate_password_strength (Cred.password_strength github_row)
                 (Kwargs.password kw))
              (default (Cred.notes github_row) (Kwargs.notes kw))
              (default (Cred.category github_row) (Kwargs.category kw))
              (Cred.created_at github_row) "2024-03-01 12:00:00"
              (Cred.last_accessed github_row))
  ∧ ∀ j, j ≠ 1 → select_by_id j (view c') = select_by_id j (view vault_one).
Proof.
  intros kw.
  apply (@update_changes_supplied_fields (Fernet vault_key) 1 kw "iv-6"
           "2024-03-01 12:00:00" vault_one github_row).
  - vm_compute. reflexivity.
  - vm_compute. reflexivity.
Defined.

Lemma update_password_round_trip_witness :
  let kw := Kwargs.mk (Some "N3w-Passphrase!") None None None (Some None) None in
  ∃ c' d c'',
    @update_credential (Fernet vault_key) 1 kw "iv-7" "2024-03-01 12:00:00" vault_one
      = (Result.mk true "Credential updated" None, c')
    ∧ password_history (view c')
      = password_history (view vault_one)
        ++ [Hist.mk (next_history_id (view vault_one)) 1
              (@_encrypt_password (Fernet vault_key) "iv-7" "N3w-Passphrase!")
              "2024-03-01 12:00:00"]
    ∧ @get_credential_by_id (Fernet vault_key) 1 "2024-03-02 08:00:00" c' = (Some d, c'')
    ∧ d !! "password" = Some (Text "N3w-Passphrase!")
    ∧ d !! "password_strength"
      = Some (Text (_calculate_password_strength "N3w-Passphrase!")).
Proof.
  intros kw.
  apply (@update_password_round_trip (Fernet vault_key) 1 kw "N3w-Passphrase!" "iv-7"
           "2024-03-01 12:00:00" "2024-03-02 08:00:00" vault_one github_row).
  - vm_compute. reflexivity.
  - reflexivity.
  - reflexivity.
  - reflexivity.
Defined.

(** ** What reaches the file *)

Section durability.
Context `{!Cipher}.

(** A call that ends in a commit, that is a point read whose id binds, or
    an add, update or delete that returns success, leaves no transaction
    open: closing the connection then loses nothing of what the connection
    saw. *)
Theorem committing_call_is_durable now k c :
  commits now k c = true →
  pending (step now k c) = None
  ∧ close (step now k c) = view (step now k c).
Proof.
  assert (∀ c', pending c' = None → pending c' = None ∧ close c' = view c') as Hclosed.
  { intros c' Hc'. split; [done|]. unfold close, view. by rewrite Hc'. }
  destruct k as [sn un pw em nt cat iv|d|i|i kw iv|i|t|]; simpl; intros Hcommit;
    try discriminate; apply Hclosed.
  - apply add_credential_success_iff in Hcommit.
    by rewrite add_credential_fresh.
  - apply bool_decide_eq_true_1 in Hcommit.
    rewrite get_credential_by_id_eq by done. cbv zeta.
    destruct (select_by_id i (view c)) as [r|]; [|done].
    by destruct (decrypt (Cred.password_encrypted r)).
  - by rewrite update_credential_success.
  - revert Hcommit.
    destruct (decide (binds i (view c))) as [Hbinds|Hbinds];
      [|by rewrite delete_credential_overflow].
    rewrite delete_credential_eq by done. cbv zeta.
    by destruct (0 <? _)%nat.
Qed.

(** A call that does not end in a commit, that is a listing, a search, the
    statistics, a point read whose id does not bind, or an add, update or
    delete that returns a failure, leaves the file as it was. *)
Theorem other_call_writes_nothing now k c :
  commits now k c = false → close (step now k c) = close c.
Proof.
  unfold close.
  destruct k as [sn un pw em nt cat iv|d|i|i kw iv|i|t|]; simpl; intros Hcommit;
    try discriminate; try done.
  - destruct (decide (key_exists sn un (view c))) as [Hdup|Hnew].
    + by rewrite add_credential_duplicate.
    + pose proof (proj2 (add_credential_success_iff sn un pw em nt cat iv now c) Hnew).
      congruence.
  - by rewrite get_all_credentials_state.
  - apply bool_decide_eq_false_1 in Hcommit.
    by rewrite get_credential_by_id_overflow.
  - by apply update_credential_failure.
  - revert Hcommit.
    destruct (decide (binds i (view c))) as [Hbinds|Hbinds];
      [|by rewrite delete_credential_overflow].
    rewrite delete_credential_eq by done. cbv zeta.
    by destruct (0 <? _)%nat.
Qed.

Lemma step_history_prefix now k c :
  foreign_keys c = false →
  password_history (view c) `prefix_of` password_history (view (step now k c)).
Proof.
  intros Hfk.
  destruct k as [sn un pw em nt cat iv|d|i|i kw iv|i|t|]; simpl.
  - destruct (decide (key_exists sn un (view c))) as [Hdup|Hnew].
    + by rewrite add_credential_duplicate.
    + rewrite add_credential_fresh by done. cbv zeta. simpl. by apply prefix_app_r.
  - by rewrite get_all_credentials_state.
  - destruct (decide (binds i (view c))) as [Hbinds|Hbinds];
      [|by rewrite get_credential_by_id_overflow].
    rewrite get_credential_by_id_eq by done. cbv zeta.
    destruct (select_by_id i (view c)) as [r|]; [|done].
    by destruct (decrypt (Cred.password_encrypted r)).
  - unfold update_credential. run.
    destruct (Kwargs.password kw) as [pw|].
    + unfold insert_password_history.
      destruct (decide (binds i (view c))) as [Hbinds|Hbinds]; [|done].
      rewrite Hfk.
      cbn [andb app]. unfold update_credentials.
      destruct (decide (binds i _)) as [Hbinds'|Hbinds']; [|done].
      destruct (existsb touches_key _ && bool_decide _); simpl; by apply prefix_app_r.
    + cbn [app]. destruct (plain_fields kw); [done|].
      unfold update_credentials.
      destruct (decide (binds i _)) as [Hbinds'|Hbinds']; [|done].
      by destruct (existsb touches_key _ && bool_decide _).
  - destruct (decide (binds i (view c))) as [Hbinds|Hbinds];
      [|by rewrite delete_credential_overflow].
    rewrite delete_credential_eq by done. cbv zeta. rewrite Hfk. by destruct (0 <? _)%nat.
  - done.
  - done.
Qed.

(** The password_history table only grows: after any session on any vault
    file, the rows the file held are still there, unchanged and in place,
    with the new rows after them. No call modifies or removes a history
    row, a deletion of its credential included. *)
Theorem history_only_grows calls file :
  password_history file
    `prefix_of` password_history (view (session calls (_connect file))).
Proof.
  assert (∀ c, foreign_keys c = false →
               password_history (view c) `prefix_of` password_history (view (session calls c)))
    as Hgen; [|by apply (Hgen (_connect file))].
  induction calls as [|[now k] calls IH]; intros c Hfk; [done|].
  simpl. etrans; [by apply (step_history_prefix now k)|].
  apply IH. by rewrite step_foreign_keys.
Qed.
End durability.

Lemma committing_call_is_durable_witness :
  let k := Delete 1 in
  pending (@step (Fernet vault_key) "2024-03-01 12:00:00" k vault_one) = None
  ∧ close (@step (Fernet vault_key) "2024-03-01 12:00:00" k vault_one)
    = view (@step (Fernet vault_key) "2024-03-01 12:00:00" k vault_one).
Proof.
  apply (@committing_call_is_durable (Fernet vault_key) "2024-03-01 12:00:00" (Delete 1)
           vault_one).
  vm_compute. reflexivity.
Defined.

Lemma other_call_writes_nothing_witness :
  let k := Update 1 (Kwargs.mk (Some "n3w") (Some "Gitlab") (Some "bob") None None None)
             "iv-4" in
  close (@step (Fernet vault_key) "2024-03-01 12:00:00" k vault_three) = close vault_three.
Proof.
  intros k.
  apply (@other_call_writes_nothing (Fernet vault_key) "2024-03-01 12:00:00" k vault_three).
  vm_compute. reflexivity.
Defined.

(** ** The constraints of the schema *)

Lemma update_where_id_ids (f : Cred.row → Cred.row) (i : Z) (rows : list Cred.row) :
  (∀ r, Cred.id (f r) = Cred.id r) →
  Cred.id <$> update_where_id f i rows = Cred.id <$> rows.
Proof.
  intros Hid. unfold update_where_id. rewrite <- list_fmap_compose.
  apply list_fmap_ext. intros _ r _. simpl. by destruct (decide (Cred.id r = i)).
Qed.

Lemma assign_keeps_key (now : string) (fields : list assignment) (r : Cred.row) :
  existsb touches_key fields = false →
  unique_key (foldl (assign now) r fields) = unique_key r.
Proof.
  revert r. induction fields as [|a fields IH]; intros r Hplain; [done|].
  simpl in Hplain. apply orb_false_iff in Hplain as [Ha Hfields].
  simpl. rewrite IH by done. by destruct r, a.
Qed.

Lemma update_where_id_split (f : Cred.row → Cred.row) (i : Z) (rows : list Cred.row) :
  NoDup (Cred.id <$> rows) →
  update_where_id f i rows = rows
  ∨ ∃ l1 r l2, rows = l1 ++ r :: l2 ∧ Cred.id r = i
               ∧ update_where_id f i rows = l1 ++ f r :: l2.
Proof.
  intros Hids.
  destruct (decide (Exists (λ r, Cred.id r = i) rows)) as [Hex|Hno].
  - right. apply Exists_exists in Hex as (r & Hr & Hi).
    apply list_elem_of_split in Hr as (l1 & l2 & ->). exists l1, r, l2.
    split; [done|]. split; [done|].
    rewrite fmap_app, fmap_cons in Hids.
    apply NoDup_app in Hids as (_ & Hl1 & Hl2). apply NoDup_cons in Hl2 as [Hl2 _].
    unfold update_where_id. rewrite fmap_app, fmap_cons, decide_True by done.
    fold (update_where_id f i l1). fold (update_where_id f i l2).
    rewrite !update_where_id_absent; [done| |].
    + intros r' Hr' Hi'. apply Hl2. rewrite Hi, <- Hi'. apply list_elem_of_fmap. eauto.
    + intros r' Hr' Hi'. apply (Hl1 (Cred.id r')).
      * apply list_elem_of_fmap. eauto.
      * rewrite Hi', <- Hi. left.
  - left. apply update_where_id_absent. intros r Hr Hi. apply Hno.
    apply Exists_exists. eauto.
Qed.

Lemma filter_nil_length {A} (P : A → Prop) `{!∀ x, Decision (P x)} (l : list A) (x : A) :
  length (filter P l) = 0%nat → x ∈ l → ¬ P x.
Proof.
  intros Hlen Hx HP.
  assert (x ∈ filter P l) as Hin by (by apply list_elem_of_filter).
  destruct (filter P l); [by apply elem_of_nil in Hin|done].
Qed.

Lemma update_keeps_keys_distinct (f : Cred.row → Cred.row) (i : Z) (rows : list Cred.row) :
  NoDup (Cred.id <$> rows) → NoDup (unique_key <$> rows) →
  (∀ r, Cred.id (f r) = Cred.id r) →
  ¬ unique_violation i (update_where_id f i rows) →
  NoDup (unique_key <$> update_where_id f i rows).
Proof.
  intros Hids Hkeys Hid Hunique.
  destruct (update_where_id_split f i rows Hids) as [->|(l1 & r & l2 & -> & Hi & Heq)];
    [done|].
  rewrite Heq in *. clear Heq.
  assert (length (filter (same_key (Cred.service_name (f r)) (Cred.username (f r)))
                    (l1 ++ f r :: l2)) ≤ 1)%nat as Hcount.
  { apply Nat.nlt_ge. intros Hmany. apply Hunique. unfold unique_violation.
    apply Exists_exists. exists (f r). split; [apply elem_of_app; right; left|].
    split; [by rewrite Hid|done]. }
  rewrite filter_app, filter_cons, decide_True, length_app in Hcount by done.
  simpl in Hcount.
  assert (∀ r', r' ∈ l1 ++ l2 → unique_key r' ≠ unique_key (f r)) as Hfresh.
  { intros r' Hr' Hkey. apply elem_of_app in Hr' as [Hr'|Hr'].
    - apply (filter_nil_length (same_key (Cred.service_name (f r)) (Cred.username (f r)))
               l1 r'); [lia|done|].
      unfold same_key. by inversion Hkey.
    - apply (filter_nil_length (same_key (Cred.service_name (f r)) (Cred.username (f r)))
               l2 r'); [lia|done|].
      unfold same_key. by inversion Hkey. }
  rewrite fmap_app, fmap_cons in *.
  apply NoDup_app in Hkeys as (Hk1 & Hk12 & Hk2). apply NoDup_cons in Hk2 as [_ Hk2].
  apply NoDup_app. split_and!.
  - done.
  - intros key Hkey Hkey'. apply elem_of_cons in Hkey' as [->|Hkey'].
    + apply list_elem_of_fmap in Hkey as (r' & Hr' & Hin).
      apply (Hfresh r'); [apply elem_of_app; by left|done].
    + apply (Hk12 key); [done|by right].
  - apply NoDup_cons. split; [|done].
    intros Hkey. apply list_elem_of_fmap in Hkey as (r' & Hr' & Hin).
    apply (Hfresh r'); [apply elem_of_app; by right|done].
Qed.

Lemma integrity_with_credential (db : Database) (r : Cred.row) :
  integrity db → Cred.id r = next_credential_id db →
  ¬ key_exists (Cred.service_name r) (Cred.username r) db →
  integrity (with_credential r db).
Proof.
  intros [Hids Hkeys Hissued Hhids Hhissued] Hid Hnew. split; simpl; try done.
  - rewrite fmap_app. apply NoDup_app. split_and!; [done| |apply NoDup_singleton].
    intros x Hx Hx'. apply list_elem_of_singleton in Hx' as ->.
    apply list_elem_of_fmap in Hx as (r' & Hr' & Hin).
    apply (next_credential_id_fresh db r'); [done|congruence].
  - rewrite fmap_app. apply NoDup_app. split_and!; [done| |apply NoDup_singleton].
    intros x Hx Hx'. apply list_elem_of_singleton in Hx' as ->.
    apply list_elem_of_fmap in Hx as (r' & Hr' & Hin).
    apply Hnew. unfold key_exists. apply Exists_exists. exists r'. split; [done|].
    unfold same_key. by inversion Hr'.
  - apply Forall_app. split; [|apply Forall_singleton; lia].
    eapply Forall_impl; [done|]. intros r' Hr'. simpl in Hr'. rewrite Hid.
    pose proof (next_rowid_above_seq (seq_credentials db) (Cred.id <$> credentials db)).
    unfold next_credential_id. lia.
Qed.

Lemma integrity_with_history (db : Database) (h : Hist.row) :
  integrity db → Hist.id h = next_history_id db → integrity (with_history h db).
Proof.
  intros [Hids Hkeys Hissued Hhids Hhissued] Hid. split; simpl; try done.
  - rewrite fmap_app. apply NoDup_app. split_and!; [done| |apply NoDup_singleton].
    intros x Hx Hx'. apply list_elem_of_singleton in Hx' as ->.
    pose proof (next_rowid_fresh (seq_password_history db)
                  (Hist.id <$> password_history db) (Hist.id h) Hx) as Hlt.
    unfold next_history_id in Hid. lia.
  - apply Forall_app. split; [|apply Forall_singleton; lia].
    eapply Forall_impl; [done|]. intros h' Hh'. simpl in Hh'. rewrite Hid.
    pose proof (next_rowid_above_seq (seq_password_history db)
                  (Hist.id <$> password_history db)).
    unfold next_history_id. lia.
Qed.

Lemma integrity_with_updated (f : Cred.row → Cred.row) (i : Z) (db : Database) :
  integrity db → (∀ r, Cred.id (f r) = Cred.id r) →
  NoDup (unique_key <$> update_where_id f i (credentials db)) →
  integrity (with_updated f i db).
Proof.
  intros [Hids Hkeys Hissued Hhids Hhissued] Hid Hnew. split; simpl; try done.
  - by rewrite update_where_id_ids.
  - unfold update_where_id. apply Forall_fmap.
    eapply Forall_impl; [done|]. intros r Hr. simpl.
    destruct (decide (Cred.id r = i)); [by rewrite Hid|done].
Qed.

Lemma NoDup_fmap_filter {A B} (g : A → B) (P : A → Prop) `{!∀ x, Decision (P x)}
    (l : list A) :
  NoDup (g <$> l) → NoDup (g <$> filter P l).
Proof.
  intros Hl. apply (sublist_NoDup (g <$> filter P l) (g <$> l)); [done|].
  apply fmap_sublist, sublist_filter.
Qed.

Lemma Forall_filter_keep {A} (Q P : A → Prop) `{!∀ x, Decision (P x)} (l : list A) :
  Forall Q l → Forall Q (filter P l).
Proof.
  rewrite !Forall_forall. intros Hl x Hx.
  apply list_elem_of_filter in Hx as [_ Hx]. by apply Hl.
Qed.

Lemma integrity_without_credential (cascade : bool) (i : Z) (db : Database) :
  integrity db → integrity (without_credential cascade i db).
Proof.
  intros [Hids Hkeys Hissued Hhids Hhissued]. split; simpl.
  - by apply NoDup_fmap_filter.
  - by apply NoDup_fmap_filter.
  - by apply Forall_filter_keep.
  - destruct cascade; [|done].
    by apply NoDup_fmap_filter.
  - destruct cascade; [|done]. by apply Forall_filter_keep.
Qed.

Section constraints.
Context `{!Cipher}.

Lemma update_credentials_integrity fields i now fk db db' :
  integrity db → update_credentials fields i now fk db = inr (db', tt) → integrity db'.
Proof.
  intros Hdb. unfold update_credentials.
  destruct (decide (binds i db)) as [Hbinds|Hbinds]; [|done].
  destruct (existsb touches_key fields) eqn:Htouch; simpl.
  - destruct (bool_decide _) eqn:Hviolation; [done|]. intros [= <-].
    apply bool_decide_eq_false_1 in Hviolation.
    apply integrity_with_updated; [done|intros; apply assign_keeps_id|].
    destruct Hdb. apply update_keeps_keys_distinct; try done.
    intros; apply assign_keeps_id.
  - intros [= <-].
    apply integrity_with_updated; [done|intros; apply assign_keeps_id|].
    assert (unique_key <$> update_where_id (λ r, foldl (assign now) r fields) i
                             (credentials db)
            = unique_key <$> credentials db) as ->; [|by destruct Hdb].
    unfold update_where_id. rewrite <- list_fmap_compose.
    apply list_fmap_ext. intros _ r _. simpl.
    destruct (decide (Cred.id r = i)); [by apply assign_keeps_key|done].
Qed.

Lemma step_keeps_integrity now k c :
  integrity (committed c) → integrity (view c) →
  integrity (committed (step now k c)) ∧ integrity (view (step now k c)).
Proof.
  intros Hcom Hview.
  destruct k as [sn un pw em nt cat iv|d|i|i kw iv|i|t|]; simpl.
  - destruct (decide (key_exists sn un (view c))) as [Hdup|Hnew].
    + by rewrite add_credential_duplicate.
    + rewrite add_credential_fresh by done. cbv zeta. cbn [snd]. rewrite view_settled.
      cbn [settled committed].
      assert (integrity
                (with_history
                   (Hist.mk
                      (next_history_id
                         (with_credential
                            (new_credential (view c) sn un em (_encrypt_password iv pw)
                               (_calculate_password_strength pw) nt cat now) (view c)))
                      (Cred.id
                         (new_credential (view c) sn un em (_encrypt_password iv pw)
                            (_calculate_password_strength pw) nt cat now))
                      (_encrypt_password iv pw) now)
                   (with_credential
                      (new_credential (view c) sn un em (_encrypt_password iv pw)
                         (_calculate_password_strength pw) nt cat now) (view c))));
        [|done].
      apply integrity_with_history; [|done].
      by apply integrity_with_credential.
  - by rewrite get_all_credentials_state.
  - destruct (decide (binds i (view c))) as [Hbinds|Hbinds];
      [|by rewrite get_credential_by_id_overflow].
    rewrite get_credential_by_id_eq by done. cbv zeta.
    assert (integrity (with_updated (set_last_accessed now) i (view c))) as Htouched.
    { apply integrity_with_updated; [done|done|].
      assert (unique_key <$> update_where_id (set_last_accessed now) i (credentials (view c))
              = unique_key <$> credentials (view c)) as ->; [|by destruct Hview].
      unfold update_where_id. rewrite <- list_fmap_compose.
      apply list_fmap_ext. intros _ r _. simpl. by destruct (decide (Cred.id r = i)). }
    destruct (select_by_id i (view c)) as [r|]; [|done].
    by destruct (decrypt (Cred.password_encrypted r)).
  - unfold update_credential. run.
    destruct (Kwargs.password kw) as [pw|].
    + unfold insert_password_history.
      destruct (decide (binds i (view c))) as [Hbinds|Hbinds]; [|done].
      destruct (foreign_keys c && negb (bool_decide (id_exists i (view c)))); [done|].
      cbn [app].
      assert (integrity (with_history
                (Hist.mk (next_history_id (view c)) i (_encrypt_password iv pw) now)
                (view c))) as Hh by (by apply integrity_with_history).
      rewrite view_working.
      match goal with |- context [update_credentials ?fields i now ?fk ?db] =>
        pose proof (update_credentials_integrity fields i now fk db) as Hupd;
        destruct (update_credentials fields i now fk db) as [e|[db' []]] end.
      * done.
      * specialize (Hupd db' Hh eq_refl). done.
    + cbn [app]. destruct (plain_fields kw) as [|a fields]; [done|].
      match goal with |- context [update_credentials ?fields i now ?fk ?db] =>
        pose proof (update_credentials_integrity fields i now fk db) as Hupd;
        destruct (update_credentials fields i now fk db) as [e|[db' []]] end.
      * done.
      * specialize (Hupd db' Hview eq_refl). done.
  - destruct (decide (binds i (view c))) as [Hbinds|Hbinds];
      [|by rewrite delete_credential_overflow].
    rewrite delete_credential_eq by done. cbv zeta.
    assert (integrity (without_credential (foreign_keys c) i (view c)))
      by (by apply integrity_without_credential).
    by destruct (0 <? _)%nat.
  - done.
  - done.
Qed.

(** The constraints of the schema are kept: on a vault file in which the
    ids of each table are distinct, the pairs (service_name, username) are
    distinct and no id is above its table's sequence, they are so after any
    session, in what the connection sees and in what is committed. *)
Theorem session_keeps_integrity calls file :
  integrity file →
  integrity (view (session calls (_connect file)))
  ∧ integrity (close (session calls (_connect file))).
Proof.
  intros Hfile.
  assert (∀ c, integrity (committed c) → integrity (view c) →
               integrity (committed (session calls c)) ∧ integrity (view (session calls c)))
    as Hgen.
  { induction calls as [|[now k] calls IH]; intros c Hcom Hview; [done|].
    simpl. destruct (step_keeps_integrity now k c Hcom Hview). by apply IH. }
  destruct (Hgen (_connect file) Hfile Hfile). done.
Qed.
End constraints.

Lemma session_keeps_integrity_witness :
  let calls :=
    [("2024-01-01 10:00:00", Add "GitHub" "alice" "s3cret" None None "General" "iv-1");
     ("2024-01-02 10:00:00", Add "Gitlab" "bob" "correct horse" None None "General" "iv-2");
     ("2024-01-03 10:00:00",
      Update 2 (Kwargs.mk None (Some "GitHub") (Some "alice") None None None) "iv-3");
     ("2024-01-04 10:00:00", Delete 1)] in
  integrity (view (@session (Fernet vault_key) calls (_connect empty_database)))
  ∧ integrity (close (@session (Fernet vault_key) calls (_connect empty_database))).
Proof.
  intros calls. apply (@session_keeps_integrity (Fernet vault_key)).
  split; simpl; constructor.
Defined.

(** ** Listings *)

Section listings.
Context `{!Cipher}.

Lemma mapM_listing_ok d (record : Cred.row → gmap string value) rows c :
  (∀ r, r ∈ rows → listing_entry d (dict_listing r) c = (inr (record r), c)) →
  mapM (listing_entry d) (dict_listing <$> rows) c = (inr (record <$> rows), c).
Proof.
  induction rows as [|r rows IH]; intros Hrows; [done|].
  rewrite !fmap_cons, mapM_cons_eq, Hrows by left.
  rewrite IH; [done|]. intros r' Hr'. apply Hrows. by right.
Qed.

(** [get_all_credentials(False)] never fails: it returns one record for
    each credential, ordered by service_name and then username, none of
    which has a 'password' or a 'password_encrypted', and it leaves the
    connection as it was. *)
Theorem listing_without_passwords c :
  ∃ rows,
    get_all_credentials false c
      = ((λ r, delete "password_encrypted" (dict_listing r)) <$> rows, c)
    ∧ rows ≡ₚ credentials (view c)
    ∧ Sorted by_service_name_username rows
    ∧ ∀ d, d ∈ (λ r, delete "password_encrypted" (dict_listing r)) <$> rows →
        d !! "password" = None ∧ d !! "password_encrypted" = None.
Proof.
  exists (merge_sort by_service_name_username (credentials (view c))). split_and!.
  - unfold get_all_credentials, try_except, execute_query.
    unfold mbind at 1. unfold M_bind at 1. cbv beta iota.
    by rewrite (mapM_listing_ok false (λ r, delete "password_encrypted" (dict_listing r))).
  - apply merge_sort_Permutation.
  - apply (Sorted_merge_sort by_service_name_username).
  - intros d Hd. apply list_elem_of_fmap in Hd as (r & -> & _). split; reflexivity.
Qed.

(** When every stored token decrypts, [get_all_credentials(True)] returns
    one record for each credential, in the same order, each with the
    decrypted 'password' and without 'password_encrypted'. *)
Theorem listing_with_passwords (plain : Cred.row → string) c :
  (∀ r, r ∈ credentials (view c) → decrypt (Cred.password_encrypted r) = Some (plain r)) →
  ∃ rows,
    get_all_credentials true c
      = ((λ r, delete "password_encrypted"
                 (<["password" := Text (plain r)]> (dict_listing r))) <$> rows, c)
    ∧ rows ≡ₚ credentials (view c)
    ∧ Sorted by_service_name_username rows.
Proof.
  intros Hplain.
  exists (merge_sort by_service_name_username (credentials (view c))). split_and!.
  - unfold get_all_credentials, try_except, execute_query.
    unfold mbind at 1. unfold M_bind at 1. cbv beta iota.
    rewrite (mapM_listing_ok true
               (λ r, delete "password_encrypted"
                       (<["password" := Text (plain r)]> (dict_listing r)))); [done|].
    intros r Hr. rewrite merge_sort_Permutation in Hr.
    unfold listing_entry, getitem, _decrypt_password, encode. run.
    change (dict_listing r !! "password_encrypted")
      with (Some (Text (Cred.password_encrypted r))).
    cbv beta iota. by rewrite (Hplain r Hr).
  - apply merge_sort_Permutation.
  - apply (Sorted_merge_sort by_service_name_username).
Qed.
End listings.

Lemma listing_with_passwords_witness :
  let plain := λ r, default "" (ref_decrypt vault_key (Cred.password_encrypted r)) in
  ∃ rows,
    @get_all_credentials (Fernet vault_key) true vault_three
      = ((λ r, delete "password_encrypted"
                 (<["password" := Text (plain r)]> (dict_listing r))) <$> rows, vault_three)
    ∧ rows ≡ₚ credentials (view vault_three)
    ∧ Sorted by_service_name_username rows.
Proof.
  intros plain. apply (@listing_with_passwords (Fernet vault_key) plain vault_three).
  intros r Hr. vm_compute in Hr.
  repeat (apply elem_of_cons in Hr as [->|Hr]; [vm_compute; reflexivity|]).
  by apply elem_of_nil in Hr.
Defined.

(** ** Searching with an empty term *)

(** The empty search term gives the pattern "%%", which every text
    matches: since service_name is never NULL, the search returns every
    credential, ordered by service_name. *)
Theorem search_empty_term_lists_all (c : Connection) :
  ∃ rows,
    search_credentials "" c = (dict_search <$> rows, c)
    ∧ rows ≡ₚ credentials (view c)
    ∧ Sorted by_service_name rows.
Proof.
  exists (merge_sort by_service_name_username
            (filter (λ r, search_match ("%" +:+ "" +:+ "%") r) (credentials (view c)))).
  split_and!.
  - reflexivity.
  - rewrite merge_sort_Permutation.
    assert (∀ rows : list Cred.row,
              filter (λ r, search_match ("%" +:+ "" +:+ "%") r) rows = rows) as ->; [|done].
    intros rows. induction rows as [|r rows IH]; [done|].
    rewrite filter_cons, decide_True, IH; [done|].
    unfold search_match. rewrite (like_substring "" (Cred.service_name r)) by done.
    by destruct (c_str (Cred.service_name r)).
  - apply Sorted_by_service_name, (Sorted_merge_sort by_service_name_username).
Qed.

(** ** The counts of the statistics *)

Lemma dict_of_rows_lookup (rows : list (string * nat)) (d : gmap string nat) (k : string) :
  NoDup rows.*1 →
  foldl (λ d row, <[row.1 := row.2]> d) d rows !! k
  = from_option Some (d !! k) ((list_to_map rows : gmap string nat) !! k).
Proof.
  revert d. induction rows as [|[k0 n0] rows IH]; intros d Hnd.
  - cbn [foldl]. by rewrite list_to_map_nil, lookup_empty.
  - rewrite fmap_cons in Hnd. apply NoDup_cons in Hnd as [Hk0 Hnd].
    cbn [foldl fst snd] in *. rewrite IH, list_to_map_cons by done.
    destruct (decide (k0 = k)) as [->|Hne].
    + rewrite (not_elem_of_list_to_map_1 (M:=gmap string) rows k) by done.
      by rewrite !lookup_insert_eq.
    + by rewrite !lookup_insert_ne by done.
Qed.

Lemma group_count_lookup (keys : list string) (k : string) :
  dict_of_rows (group_count keys) !! k
  = (if decide (k ∈ keys) then Some (length (filter (λ k', k' = k) keys)) else None).
Proof.
  assert (NoDup (group_count keys).*1) as Hnd.
  { unfold group_count. rewrite <- list_fmap_compose. simpl.
    rewrite list_fmap_id. apply NoDup_remove_dups. }
  unfold dict_of_rows. rewrite dict_of_rows_lookup, lookup_empty by done.
  destruct (decide (k ∈ keys)) as [Hin|Hout].
  - rewrite (elem_of_list_to_map_1 (M:=gmap string) (group_count keys) k
               (length (filter (λ k', k' = k) keys))); [done|done|].
    unfold group_count. apply list_elem_of_fmap. exists k. split; [done|].
    by apply elem_of_remove_dups.
  - rewrite (not_elem_of_list_to_map_1 (M:=gmap string) (group_count keys) k); [done|].
    unfold group_count. rewrite <- list_fmap_compose. simpl. rewrite list_fmap_id.
    by rewrite elem_of_remove_dups.
Qed.

Lemma column_count (column : Cred.row → string) (rows : list Cred.row) (k : string) :
  length (filter (λ k', k' = k) (column <$> rows))
  = length (filter (λ r, column r = k) rows).
Proof.
  induction rows as [|r rows IH]; [done|].
  rewrite fmap_cons, !filter_cons. destruct (decide (column r = k)); simpl; by rewrite IH.
Qed.

Lemma column_count_zero (column : Cred.row → string) (rows : list Cred.row) (k : string) :
  k ∈ column <$> rows ↔ length (filter (λ r, column r = k) rows) ≠ 0%nat.
Proof.
  rewrite list_elem_of_fmap. split.
  - intros (r & -> & Hr) Hlen. by apply (filter_nil_length _ rows r Hlen Hr).
  - intros Hlen. destruct (filter (λ r, column r = k) rows) as [|r rest] eqn:Hf; [done|].
    assert (r ∈ filter (λ r, column r = k) rows) as Hr by (rewrite Hf; left).
    apply list_elem_of_filter in Hr as [? ?]. eauto.
Qed.

(** In the statistics, the entry of a category is the number of
    credentials of that category, and a category of no credential has no
    entry; the same holds of the strengths. *)
Theorem statistics_counts (c : Connection) :
  ∃ s, get_statistics c = (Some s, c)
       ∧ (∀ k, Stats.by_category s !! k
               = let n := length (filter (λ r, Cred.category r = k)
                                    (credentials (view c))) in
                 if decide (n = 0%nat) then None else Some n)
       ∧ (∀ k, Stats.by_strength s !! k
               = let n := length (filter (λ r, Cred.password_strength r = k)
                                    (credentials (view c))) in
                 if decide (n = 0%nat) then None else Some n).
Proof.
  eexists. split; [reflexivity|]. simpl.
  split; intros k; rewrite group_count_lookup, column_count.
  - destruct (decide (k ∈ Cred.category <$> credentials (view c))) as [Hin|Hout].
    + apply column_count_zero in Hin. by rewrite decide_False.
    + rewrite decide_True; [done|].
      apply dec_stable. intros Hlen. apply Hout. by apply column_count_zero.
  - destruct (decide (k ∈ Cred.password_strength <$> credentials (view c))) as [Hin|Hout].
    + apply column_count_zero in Hin. by rewrite decide_False.
    + rewrite decide_True; [done|].
      apply dec_stable. intros Hlen. apply Hout. by apply column_count_zero.
Qed.

(** ** Searching: letter case, and what was just added *)

Lemma fold_case_percent (c : ascii) : Ascii.eqb (fold_case c) "%" = Ascii.eqb c "%".
Proof. destruct c as [[] [] [] [] [] [] [] []]; reflexivity. Qed.

Lemma fold_case_underscore (c : ascii) : Ascii.eqb (fold_case c) "_" = Ascii.eqb c "_".
Proof. destruct c as [[] [] [] [] [] [] [] []]; reflexivity. Qed.

Lemma fold_case_idempotent (c : ascii) : fold_case (fold_case c) = fold_case c.
Proof. destruct c as [[] [] [] [] [] [] [] []]; reflexivity. Qed.

Lemma fold_case_nul (c : ascii) : Ascii.eqb (fold_case c) zero = Ascii.eqb c zero.
Proof. destruct c as [[] [] [] [] [] [] [] []]; reflexivity. Qed.

Lemma c_str_lower (s : string) : c_str (lower s) = lower (c_str s).
Proof.
  induction s as [|c s IH]; [done|].
  cbn [lower c_str]. rewrite fold_case_nul.
  destruct (Ascii.eqb c zero); [done|]. cbn [lower]. by rewrite IH.
Qed.

Lemma compare_lower (pattern s : string) :
  pattern_compare (lower pattern) s = pattern_compare pattern s.
Proof.
  revert s. induction pattern as [|c pattern IH]; intros s; [done|].
  cbn [lower pattern_compare]. rewrite fold_case_percent, fold_case_underscore.
  destruct (Ascii.eqb c "%").
  - induction s as [|d s IHs]; [by rewrite IH|]. by rewrite IH, IHs.
  - destruct s as [|d s]; [done|].
    unfold eqb_nocase. by rewrite fold_case_idempotent, IH.
Qed.

Lemma like_lower (pattern s : string) : like (lower pattern) s = like pattern s.
Proof. unfold like. by rewrite c_str_lower, compare_lower. Qed.

Lemma lower_app (s t : string) : lower (s +:+ t) = lower s +:+ lower t.
Proof.
  induction s as [|c s IH]; [done|].
  change (String c s +:+ t) with (String c (s +:+ t)). cbn [lower]. by rewrite IH.
Qed.

(** A search does not depend on the case of the letters A-Z of its term:
    the term written in lower case finds the same records in the same
    order. *)
Theorem search_ignores_term_case (term : string) (c : Connection) :
  search_credentials (lower term) c = search_credentials term c.
Proof.
  unfold search_credentials, try_except, execute_query. cbv zeta. f_equal. f_equal. f_equal.
  apply list_filter_iff. intros r.
  assert ("%" +:+ lower term +:+ "%" = lower ("%" +:+ term +:+ "%")) as ->
    by (by rewrite !lower_app).
  unfold search_match, like_null. rewrite !like_lower.
  destruct (Cred.email r); [by rewrite like_lower|done].
Qed.






